(** * flextime: optional-segment templates and time-token translation

    A shallow embedding of the Go packages [flextime] and [optionalstring]
    of ngicks/flextime, and the properties of their specification.

    Go strings are byte strings: they are modelled by [string] (a list of
    [ascii], i.e. of bytes), [len] by [String.length].  A Go call either
    returns, panics or does not return; [outcome] keeps the three apart. *)

From Stdlib Require Import String Ascii List Bool Arith Lia Permutation.
Import ListNotations.
Set Warnings "-register-all".
Open Scope list_scope.
Open Scope string_scope.
Open Scope nat_scope.

(** ** Outcomes of a Go call *)

Inductive panic_reason : Type :=
| SliceOutOfRange
| IndexOutOfRange
| NilDereference
| Explicit (msg : string).

Inductive outcome (A : Type) : Type :=
| Done (a : A)
| Panic (why : panic_reason)
| OutOfFuel.

Arguments Done {A} a.
Arguments Panic {A} why.
Arguments OutOfFuel {A}.

Definition bind {A B : Type} (m : outcome A) (k : A -> outcome B) : outcome B :=
  match m with
  | Done a => k a
  | Panic why => Panic why
  | OutOfFuel => OutOfFuel
  end.

Notation "x <- m ;; k" := (bind m (fun x => k))
  (at level 61, m at next level, right associativity).

(** A Go [(T, error)] pair where exactly one side is meaningful. *)
Inductive result (E A : Type) : Type :=
| Ok (a : A)
| Err (e : E).

Arguments Ok {E A} a.
Arguments Err {E A} e.

(** ** Go string primitives *)

Module gostr.

(** [s[i]] *)
Definition index (s : string) (i : nat) : outcome ascii :=
  match String.get i s with
  | Some c => Done c
  | None => Panic IndexOutOfRange
  end.

(** [s[lo:]] *)
Definition slice_from (s : string) (lo : nat) : outcome string :=
  if lo <=? String.length s
  then Done (substring lo (String.length s - lo) s)
  else Panic SliceOutOfRange.

(** [s[:hi]] *)
Definition slice_to (s : string) (hi : nat) : outcome string :=
  if hi <=? String.length s
  then Done (substring 0 hi s)
  else Panic SliceOutOfRange.

(** [s[lo:hi]] *)
Definition slice (s : string) (lo hi : nat) : outcome string :=
  if (lo <=? hi) && (hi <=? String.length s)
  then Done (substring lo (hi - lo) s)
  else Panic SliceOutOfRange.

(** [strings.HasPrefix(s, p)] *)
Definition HasPrefix (s p : string) : bool := String.prefix p s.

(** [strings.HasSuffix(s, suffix)] *)
Definition HasSuffix (s suffix : string) : bool :=
  (String.length suffix <=? String.length s)
  && String.eqb (substring (String.length s - String.length suffix)
                           (String.length suffix) s) suffix.

(** [strings.ReplaceAll(s, old, new)] for a one-byte [old]. *)
Fixpoint ReplaceAll1 (s : string) (old : ascii) (new : string) : string :=
  match s with
  | EmptyString => EmptyString
  | String c rest =>
      if Ascii.eqb c old then new ++ ReplaceAll1 rest old new
      else String c (ReplaceAll1 rest old new)
  end.

(** [fmt.Sprintf("%+v", xs)] for a slice of strings: [[a b c]]. *)
Definition sprint_slice (xs : list string) : string :=
  "[" ++ String.concat " " xs ++ "]".

End gostr.

(** ** Package flextime: the token lexer and translator *)

Module lexer.
Import gostr.

Record FormatError : Type := mkFormatError {
  idx : nat;
  expected : string;
  actual : string;
  msg : string
}.

Definition timeFormatToken := string.
Definition goTimeFmtToken := string.

Definition backslash : ascii := "\"%char.
Definition squote_byte : ascii := "'"%char.

Definition tokenSerachTable : list (ascii * list timeFormatToken) :=
  [ ("M"%char, ["MMMM"; "MMM"; "MST"; "MM"; "M"]);
    ("w"%char, ["ww"; "w"]);
    ("d"%char, ["ddd"; "dd"; "d"]);
    ("D"%char, ["DDD"; "DD"; "D"]);
    ("H"%char, ["HH"]);
    ("h"%char, ["hh"; "h"]);
    ("m"%char, ["mm"; "m"]);
    ("s"%char, ["ss"; "s"]);
    ("Y"%char, ["YYYY"; "YY"]);
    ("y"%char, ["yyyy"; "yy"]);
    ("A"%char, ["A"]);
    ("a"%char, ["a"]);
    ("Z"%char, ["Z07:00:00"; "Z070000"; "Z07"; "ZZ"; "Z"]);
    ("-"%char, ["-07:00:00"; "-070000"; "-07:00"; "-0700"; "-07"]) ].

Definition tokenTable : list (timeFormatToken * goTimeFmtToken) :=
  [ ("MMMM", "January"); ("MMM", "Jan"); ("M", "1"); ("MM", "01");
    ("ww", "Monday"); ("w", "Mon");
    ("D", "2"); ("d", "2"); ("DD", "02"); ("dd", "02");
    ("DDD", "002"); ("ddd", "002");
    ("HH", "15"); ("h", "3"); ("hh", "03");
    ("m", "4"); ("mm", "04"); ("s", "5"); ("ss", "05");
    ("YYYY", "2006"); ("yyyy", "2006"); ("YY", "06"); ("yy", "06");
    ("A", "PM"); ("a", "pm"); ("MST", "MST");
    ("ZZ", "Z0700"); ("Z070000", "Z070000"); ("Z07", "Z07");
    ("Z", "Z07:00"); ("Z07:00:00", "Z07:00:00");
    ("-0700", "-0700"); ("-070000", "-070000"); ("-07", "-07");
    ("-07:00", "-07:00"); ("-07:00:00", "-07:00:00") ].

(** Map lookup [m[k]] with the [ok] flag as an option. *)
Fixpoint lookup_byte {V : Type} (m : list (ascii * V)) (k : ascii) : option V :=
  match m with
  | [] => None
  | (k', v) :: rest => if Ascii.eqb k' k then Some v else lookup_byte rest k
  end.

Fixpoint lookup_string {V : Type} (m : list (string * V)) (k : string) : option V :=
  match m with
  | [] => None
  | (k', v) :: rest => if String.eqb k' k then Some v else lookup_string rest k
  end.

(** [timeFormatToken.toGoFmt] *)
Definition toGoFmt (tt : timeFormatToken) : outcome string :=
  match lookup_string tokenTable tt with
  | Some token => Done token
  | None =>
      if HasPrefix tt ".S" then Done (ReplaceAll1 tt "S"%char "0")
      else if HasPrefix tt ".0" || HasPrefix tt ".9" then Done tt
      else Panic (Explicit ("unknown: " ++ tt))
  end.

(** [getRepeatOf]: the loop over [i], with [k] iterations left. *)
Fixpoint getRepeatOf_from (k i : nat) (input target : string) : outcome string :=
  match k with
  | 0 => Done input
  | S k' =>
      w <- slice input i (i + String.length target) ;;
      if negb (String.eqb w target)
      then slice_to input (i + String.length target - 1)
      else getRepeatOf_from k' (S i) input target
  end.

Definition getRepeatOf (input target : string) : outcome string :=
  getRepeatOf_from (String.length input) 0 input target.

(** [getUntilClosingSingleQuote]: the loop over [i], with [k] iterations left. *)
Fixpoint getUntilClosingSingleQuote_from (k i : nat) (input : string)
  : outcome string :=
  match k with
  | 0 => Done input
  | S k' =>
      c <- index input i ;;
      if Ascii.eqb c squote_byte then
        if i =? 0 then Done ""
        else
          p <- index input (i - 1) ;;
          closes <- (if negb (Ascii.eqb p backslash) then Done true
                     else
                       upto <- slice_to input (i + 1) ;;
                       Done (HasSuffix upto "\\'")) ;;
          if closes : bool
          then slice_to input i
          else getUntilClosingSingleQuote_from k' (S i) input
      else getUntilClosingSingleQuote_from k' (S i) input
  end.

Definition getUntilClosingSingleQuote (input : string) : outcome string :=
  getUntilClosingSingleQuote_from (String.length input) 0 input.

(** The four non-error results of [nextChunk]. *)
Record chunk : Type := mkChunk {
  prefix : string;
  found : string;
  suffix : string;
  isToken : bool
}.

(** The [for _, possible := range possibleSequences] search. *)
Fixpoint first_prefix (rest : string) (possibleSequences : list timeFormatToken)
  : option timeFormatToken :=
  match possibleSequences with
  | [] => None
  | possible :: more =>
      if HasPrefix rest possible then Some possible
      else first_prefix rest more
  end.

(** The search of [tokenSerachTable] that follows the [switch]; [next] is
    the rest of the loop, from [i + 1] on. *)
Definition search_table (c : ascii) (rest input : string) (i : nat)
  (next : outcome (result FormatError chunk))
  : outcome (result FormatError chunk) :=
  match lookup_byte tokenSerachTable c with
  | Some possibleSequences =>
      match first_prefix rest possibleSequences with
      | Some possible =>
          pre <- slice_to input i ;;
          suf <- slice_from input (i + String.length possible) ;;
          Done (Ok (mkChunk pre possible suf true))
      | None =>
          if Ascii.eqb c "-"%char
          then next
          else Done (Err (mkFormatError i
                 ("must be prefixed with one of "
                    ++ sprint_slice possibleSequences)
                 rest
                 "maybe wrong len, like Y or YYY."))
      end
  | None => next
  end.

(** [nextChunk]: the loop over [i], with [k] iterations left. *)
Fixpoint nextChunk_from (k i : nat) (input : string)
  : outcome (result FormatError chunk) :=
  match k with
  | 0 => Done (Ok (mkChunk input "" "" false))
  | S k' =>
      c <- index input i ;;
      rest <- slice_from input i ;;
      if Ascii.eqb c backslash then
        pre <- slice_to input i ;;
        fnd <- slice input (i + 1) (i + 2) ;;
        suf <- slice_from input (i + 2) ;;
        Done (Ok (mkChunk pre fnd suf false))
      else if Ascii.eqb c "."%char then
        if HasPrefix rest ".S" || HasPrefix rest ".9" || HasPrefix rest ".0"
        then
          tail <- slice_from input (i + 1) ;;
          target <- slice input (i + 1) (i + 2) ;;
          repeated <- getRepeatOf tail target ;;
          pre <- slice_to input i ;;
          suf <- slice_from input (i + String.length ("." ++ repeated)) ;;
          Done (Ok (mkChunk pre ("." ++ repeated) suf true))
        else search_table c rest input i (nextChunk_from k' (S i) input)
      else if Ascii.eqb c squote_byte then
        tail <- slice_from input (i + 1) ;;
        unescaped <- getUntilClosingSingleQuote tail ;;
        pre <- slice_to input i ;;
        suf <- slice_from input (i + String.length ("'" ++ unescaped ++ "'")) ;;
        Done (Ok (mkChunk pre unescaped suf false))
      else search_table c rest input i (nextChunk_from k' (S i) input)
  end.

Definition nextChunk (input : string) : outcome (result FormatError chunk) :=
  nextChunk_from (String.length input) 0 input.

(** [ReplaceTimeToken]: the [for len(input) > 0] loop. *)
Fixpoint ReplaceTimeToken_loop (fuel : nat) (input output : string)
  : outcome (result FormatError string) :=
  if String.length input =? 0 then Done (Ok output)
  else
    match fuel with
    | 0 => OutOfFuel
    | S fuel' =>
        r <- nextChunk input ;;
        match r with
        | Err e => Done (Err e)
        | Ok ch =>
            let output := output ++ prefix ch in
            if isToken ch then
              t <- toGoFmt (found ch) ;;
              ReplaceTimeToken_loop fuel' (suffix ch) (output ++ t)
            else
              ReplaceTimeToken_loop fuel' (suffix ch) (output ++ found ch)
        end
    end.

Definition ReplaceTimeToken (input : string)
  : outcome (result FormatError string) :=
  ReplaceTimeToken_loop (String.length input) input "".

End lexer.

(** ** The parser-combinator engine (github.com/prataprc/goparsec)

    The grammar of both packages is written with goparsec's AST combinators.
    The engine is a dependency, not part of the repository; this module
    models the part of it that [MakeOptionalStringParser] uses:
    - a scanner is the text that remains to be read;
    - [Atom] and [Token] skip leading white space, then match;
    - a combinator called with a [nil] callback returns the node it built,
      and [OrdChoice] then returns the node of the alternative that matched;
    - [GetValue] of a non-terminal is the concatenation of its children's. *)

Module parsec.

Inductive Queryable : Type :=
| Terminal (name value : string)
| NonTerminal (name : string) (children : list Queryable).

Definition GetName (n : Queryable) : string :=
  match n with
  | Terminal name _ => name
  | NonTerminal name _ => name
  end.

Definition GetChildren (n : Queryable) : list Queryable :=
  match n with
  | Terminal _ _ => []
  | NonTerminal _ children => children
  end.

Fixpoint GetValue (n : Queryable) : string :=
  match n with
  | Terminal _ value => value
  | NonTerminal _ children =>
      (fix values (cs : list Queryable) : string :=
         match cs with
         | [] => ""
         | c :: rest => GetValue c ++ values rest
         end) children
  end.

Fixpoint values (cs : list Queryable) : string :=
  match cs with
  | [] => ""
  | c :: rest => GetValue c ++ values rest
  end.

(** Number of nodes of a list of trees. *)
Fixpoint size (n : Queryable) : nat :=
  match n with
  | Terminal _ _ => 1
  | NonTerminal _ children =>
      S ((fix sizes (cs : list Queryable) : nat :=
            match cs with
            | [] => 0
            | c :: rest => size c + sizes rest
            end) children)
  end.

Fixpoint sizes (cs : list Queryable) : nat :=
  match cs with
  | [] => 0
  | c :: rest => size c + sizes rest
  end.

(** Number of nodes named [OPTIONAL] in a tree: its optional groups. *)
Fixpoint optional_groups (n : Queryable) : nat :=
  match n with
  | Terminal _ _ => 0
  | NonTerminal name children =>
      (if String.eqb name "OPTIONAL" then 1 else 0)
      + (fix groups (cs : list Queryable) : nat :=
           match cs with
           | [] => 0
           | c :: rest => optional_groups c + groups rest
           end) children
  end.

Fixpoint optional_groups_in (cs : list Queryable) : nat :=
  match cs with
  | [] => 0
  | c :: rest => optional_groups c + optional_groups_in rest
  end.

Definition Scanner := string.

(** A parser returns a node and the advanced scanner, or [nil] ([None]). *)
Definition Parser := Scanner -> outcome (option (Queryable * Scanner)).

Definition is_ws (c : ascii) : bool :=
  Ascii.eqb c " "%char || Ascii.eqb c "009"%char
  || Ascii.eqb c "013"%char || Ascii.eqb c "010"%char.

(** [SkipWS]: the scanner's white-space pattern is [^[ \t\r\n]+]. *)
Fixpoint SkipWS (s : Scanner) : Scanner :=
  match s with
  | String c rest => if is_ws c then SkipWS rest else s
  | EmptyString => s
  end.

(** [MatchString]: the text after a literal prefix. *)
Fixpoint MatchString (lit : string) (s : Scanner) : option Scanner :=
  match lit with
  | EmptyString => Some s
  | String c lit' =>
      match s with
      | String d rest => if Ascii.eqb c d then MatchString lit' rest else None
      | EmptyString => None
      end
  end.

Definition Atom (lit name : string) : Parser :=
  fun s =>
    let news := SkipWS s in
    match MatchString lit news with
    | Some rest => Done (Some (Terminal name lit, rest))
    | None => Done None
    end.

(** [Token]: the regular expression is given by its anchored matcher, which
    returns the matched text and the text after it. *)
Definition Token (pattern : Scanner -> option (string * Scanner)) (name : string)
  : Parser :=
  fun s =>
    let news := SkipWS s in
    match pattern news with
    | Some (tok, rest) => Done (Some (Terminal name tok, rest))
    | None => Done None
    end.

Fixpoint OrdChoice (name : string) (parsers : list Parser) : Parser :=
  fun s =>
    match parsers with
    | [] => Done None
    | p :: more =>
        r <- p s ;;
        match r with
        | Some found => Done (Some found)
        | None => OrdChoice name more s
        end
    end.

(** The children collected by [And], left to right. *)
Fixpoint and_seq (parsers : list Parser) (s : Scanner)
  : outcome (option (list Queryable * Scanner)) :=
  match parsers with
  | [] => Done (Some ([], s))
  | p :: more =>
      r <- p s ;;
      match r with
      | None => Done None
      | Some (n, news) =>
          r' <- and_seq more news ;;
          match r' with
          | None => Done None
          | Some (ns, news') => Done (Some (n :: ns, news'))
          end
      end
  end.

Definition And (name : string) (parsers : list Parser) : Parser :=
  fun s =>
    r <- and_seq parsers s ;;
    match r with
    | Some (ns, news) => Done (Some (NonTerminal name ns, news))
    | None => Done None
    end.

(** The [for] loop of [Kleene] and [Many]: it runs until the operand fails;
    [fuel] bounds the number of iterations. *)
Fixpoint repeat_loop (p : Parser) (fuel : nat) (s : Scanner)
  : outcome (list Queryable * Scanner) :=
  match fuel with
  | 0 => OutOfFuel
  | S fuel' =>
      r <- p s ;;
      match r with
      | None => Done ([], s)
      | Some (n, news) =>
          r' <- repeat_loop p fuel' news ;;
          Done (n :: fst r', snd r')
      end
  end.

(** An operand that matches consumes at least one byte, so the loop on [s]
    makes at most [length s] successful rounds and one failing round. *)
Definition Kleene (name : string) (p : Parser) : Parser :=
  fun s =>
    r <- repeat_loop p (S (String.length s)) s ;;
    Done (Some (NonTerminal name (fst r), snd r)).

Definition Many (name : string) (p : Parser) : Parser :=
  fun s =>
    r <- repeat_loop p (S (String.length s)) s ;;
    match fst r with
    | [] => Done None
    | _ :: _ => Done (Some (NonTerminal name (fst r), snd r))
    end.

(** [ast.Parsewith(p, s)] *)
Definition Parsewith (p : Parser) (s : Scanner) : outcome (option Queryable) :=
  r <- p s ;;
  match r with
  | Some (node, _) => Done (Some node)
  | None => Done None
  end.

Definition NewScanner (text : string) : Scanner := text.

(** *** The two regular expressions of the grammar *)

Definition in_range (lo hi : nat) (c : ascii) : bool :=
  (lo <=? nat_of_ascii c) && (nat_of_ascii c <=? hi).

(** Width in bytes of the rune at the head of [s], as Go's regexp decodes
    UTF-8: an ill-formed sequence is a rune of one byte. *)
Definition rune_width (s : string) : nat :=
  match s with
  | EmptyString => 0
  | String b0 rest =>
      let x := nat_of_ascii b0 in
      if x <? 194 then 1
      else if x <=? 223 then
        match rest with
        | String b1 _ => if in_range 128 191 b1 then 2 else 1
        | _ => 1
        end
      else if x <=? 239 then
        match rest with
        | String b1 (String b2 _) =>
            if in_range (if x =? 224 then 160 else 128)
                        (if x =? 237 then 159 else 191) b1
               && in_range 128 191 b2
            then 3 else 1
        | _ => 1
        end
      else if x <=? 244 then
        match rest with
        | String b1 (String b2 (String b3 _)) =>
            if in_range (if x =? 240 then 144 else 128)
                        (if x =? 244 then 143 else 191) b1
               && in_range 128 191 b2 && in_range 128 191 b3
            then 4 else 1
        | _ => 1
        end
      else 1
  end.

Fixpoint take (n : nat) (s : string) : string :=
  match n, s with
  | S n', String c rest => String c (take n' rest)
  | _, _ => EmptyString
  end.

Fixpoint drop (n : nat) (s : string) : string :=
  match n, s with
  | S n', String _ rest => drop n' rest
  | _, _ => s
  end.

(** [\\.]: a backslash and one rune other than a line feed. *)
Definition match_escapedchar (s : Scanner) : option (string * Scanner) :=
  match s with
  | String c rest =>
      if Ascii.eqb c "\"%char then
        match rest with
        | String d _ =>
            if Ascii.eqb d "010"%char then None
            else Some (String c (take (rune_width rest) rest),
                       drop (rune_width rest) rest)
        | EmptyString => None
        end
      else None
  | EmptyString => None
  end.

Definition is_special (c : ascii) : bool :=
  Ascii.eqb c "["%char || Ascii.eqb c "]"%char
  || Ascii.eqb c "\"%char || Ascii.eqb c "'"%char.

(** The longest prefix of bytes that are not special, and what follows. *)
Fixpoint span_normal (s : string) : string * string :=
  match s with
  | String c rest =>
      if is_special c then (EmptyString, s)
      else let (run, after) := span_normal rest in (String c run, after)
  | EmptyString => (EmptyString, EmptyString)
  end.

(** [[^\[\]\\']+] *)
Definition match_normalchars (s : Scanner) : option (string * Scanner) :=
  match span_normal s with
  | (EmptyString, _) => None
  | (run, after) => Some (run, after)
  end.

End parsec.

(** ** The grammar shared by the two packages

    Both packages declare the same node names and terminals, and the same
    non-terminals up to [optional]; they differ in the last line of
    [MakeOptionalStringParser]. *)

Module grammar.
Import parsec.

Definition OPENSQR := "OPENSQR".
Definition CLOSESQR := "CLOSESQR".
Definition SQUOTE := "SQUOTE".
Definition ESCAPEDCHAR := "ESCAPEDCHAR".
Definition NORMALCHARS := "NORMALCHARS".
Definition CHAR := "CHAR".
Definition CHARS := "CHARS".
Definition CHARWITHINESCAPE := "CHARWITHINESCAPE".
Definition CHARSWITHINESCAPE := "CHARSWITHINESCAPE".
Definition ESCAPED := "ESCAPED".
Definition ITEM := "ITEM".
Definition ITEMS := "ITEMS".
Definition OPTIONAL := "OPTIONAL".
Definition OPTIONALSTRING := "OPTIONALSTRING".

Definition opensqr : Parser := Atom "[" OPENSQR.
Definition closesqr : Parser := Atom "]" CLOSESQR.
Definition squote : Parser := Atom "'" SQUOTE.
Definition escapedchar : Parser := Token match_escapedchar ESCAPEDCHAR.
Definition normalchars : Parser := Token match_normalchars NORMALCHARS.

Definition char : Parser := OrdChoice CHAR [escapedchar; normalchars].
Definition chars : Parser := Many CHARS char.
Definition charWithinEscape : Parser :=
  OrdChoice CHARWITHINESCAPE [escapedchar; normalchars; opensqr; closesqr].
Definition charsWithinEscape : Parser := Many CHARSWITHINESCAPE charWithinEscape.
Definition escaped : Parser := And ESCAPED [squote; charsWithinEscape; squote].

(** [optional] refers to itself through [item]; [depth] bounds the nesting
    of the calls, and a call at depth [0] does not return. *)
Fixpoint optional (depth : nat) : Parser :=
  match depth with
  | 0 => fun _ => OutOfFuel
  | S depth' =>
      And OPTIONAL
        [opensqr;
         Kleene ITEMS (OrdChoice ITEM [chars; escaped; optional depth']);
         closesqr]
  end.

Definition item (depth : nat) : Parser :=
  OrdChoice ITEM [chars; escaped; optional depth].

Definition items (depth : nat) : Parser := Kleene ITEMS (item depth).

End grammar.

(** ** Package flextime: the expansion tree (optional_string.go) *)

Module flextime.
Import parsec grammar.

Inductive valueType : Type :=
| normal
| singleQuoteEscaped
| slashEscaped.

Record value : Type := mkValue {
  value_typ : valueType;
  value_value : string
}.

Inductive treeNodeType : Type :=
| text
| optional.

Inductive treeNode : Type := mkTreeNode {
  left : option treeNode;
  right : option treeNode;
  node_value : list value;
  node_typ : treeNodeType
}.

(** [&treeNode{}] *)
Definition newTreeNode : treeNode := mkTreeNode None None [] text.

Definition Clone (n : treeNode) : list value := node_value n.

Definition AddValue (n : treeNode) (v : string) (typ : valueType) : treeNode :=
  mkTreeNode (left n) (right n) (node_value n ++ [mkValue typ v])%list (node_typ n).

Definition SetAsOptional (n : treeNode) : treeNode :=
  mkTreeNode (left n) (right n) (node_value n) optional.

Definition IsOptional (n : treeNode) : bool :=
  match node_typ n with
  | optional => true
  | text => false
  end.

(** [n.Left()]: the child, created when absent. *)
Definition Left (n : treeNode) : treeNode :=
  match left n with
  | Some l => l
  | None => newTreeNode
  end.

Definition HasLeft (n : treeNode) : bool :=
  match left n with Some _ => true | None => false end.

Definition Right (n : treeNode) : treeNode :=
  match right n with
  | Some r => r
  | None => newTreeNode
  end.

Definition HasRight (n : treeNode) : bool :=
  match right n with Some _ => true | None => false end.

(** Writing through the pointer returned by [Left()] / [Right()]. *)
Definition set_left (n l : treeNode) : treeNode :=
  mkTreeNode (Some l) (right n) (node_value n) (node_typ n).

Definition set_right (n r : treeNode) : treeNode :=
  mkTreeNode (left n) (Some r) (node_value n) (node_typ n).

Definition rawString := list value.

(** [rawString.String] *)
Fixpoint String_ (rs : rawString) : string :=
  match rs with
  | [] => ""
  | v :: rest => value_value v ++ String_ rest
  end.

Definition nonEmpty (rs : rawString) : bool := negb (String.eqb (String_ rs) "").

(** [treeNode.Flatten] *)
Fixpoint Flatten (n : treeNode) : list rawString :=
  let c := Clone n in
  let cur : rawString := if 0 <? List.length c then c else [] in
  let total : list rawString := if 0 <? List.length c then [cur] else [] in
  let total :=
    match left n with
    | Some l => (total ++ map (fun s => cur ++ s) (Flatten l))%list
    | None => total
    end in
  let total :=
    match right n with
    | Some rt =>
        let r := Flatten rt in
        if existsb nonEmpty r
        then flat_map (fun rws => map (fun oo => (oo ++ rws)%list) total) r
        else total
    | None => total
    end in
  if IsOptional n && nonEmpty cur
  then (total ++ [[]])%list
  else total.

(** Number of optional groups in the subtree rooted at [n]. *)
Fixpoint optional_count (n : treeNode) : nat :=
  (if IsOptional n then 1 else 0)
  + match left n with Some l => optional_count l | None => 0 end
  + match right n with Some r => optional_count r | None => 0 end.

(** [MakeOptionalStringParser] of package flextime: at the top level an
    optional group or [chars]. *)
Definition MakeOptionalStringParser (depth : nat) : Parser :=
  Kleene OPTIONALSTRING (OrdChoice "items" [grammar.optional depth; chars]).

Inductive error : Type :=
| SyntaxError (org parsedAs : string)
| recovered (rcv : panic_reason).

(** The [case CHARS] loop over the children of the node. *)
Fixpoint decode_chars (children : list Queryable) (ctx : treeNode)
  : outcome treeNode :=
  match children with
  | [] => Done ctx
  | v :: rest =>
      if String.eqb (GetName v) NORMALCHARS then
        decode_chars rest (AddValue ctx (GetValue v) normal)
      else if String.eqb (GetName v) ESCAPEDCHAR then
        decode_chars rest (AddValue ctx (GetValue v) singleQuoteEscaped)
      else
        Panic (Explicit ("incorrect implementation: " ++ GetName v ++ ", "
                           ++ GetValue v))
  end.

(** The [for i] loop of [recursiveDecode] from [nodes[i:] = rest] on;
    [rec] is [recursiveDecode] itself. *)
Fixpoint decode_loop (rec : list Queryable -> treeNode -> outcome treeNode)
  (nodes rest : list Queryable) (onceFound : bool) (ctx : treeNode)
  : outcome treeNode :=
  match rest with
  | [] => Done ctx
  | node :: rest' =>
      if onceFound then
        r <- rec rest (Right ctx) ;;
        Done (set_right ctx r)
      else if String.eqb (GetName node) OPTIONALSTRING then
        ctx' <- rec nodes ctx ;;
        decode_loop rec nodes rest' onceFound ctx'
      else if String.eqb (GetName node) OPTIONAL then
        if negb onceFound then
          optNext <- rec (GetChildren node) (SetAsOptional (Left ctx)) ;;
          decode_loop rec nodes rest' true (set_left ctx optNext)
        else
          optNext <- rec (GetChildren node) (SetAsOptional (Right ctx)) ;;
          decode_loop rec nodes rest' onceFound (set_right ctx optNext)
      else if String.eqb (GetName node) CHARS then
        ctx' <- decode_chars (GetChildren node) ctx ;;
        decode_loop rec nodes rest' onceFound ctx'
      else if String.eqb (GetName node) ESCAPED then
        decode_loop rec nodes rest' onceFound
          (AddValue ctx (GetValue node) singleQuoteEscaped)
      else if String.eqb (GetName node) ITEMS then
        ctx' <- rec (GetChildren node) ctx ;;
        decode_loop rec nodes rest' onceFound ctx'
      else decode_loop rec nodes rest' onceFound ctx
  end.

(** [recursiveDecode]; [fuel] bounds the depth of the calls. *)
Fixpoint recursiveDecode (fuel : nat) (nodes : list Queryable) (ctx : treeNode)
  : outcome treeNode :=
  match fuel with
  | 0 => OutOfFuel
  | S fuel' => decode_loop (recursiveDecode fuel') nodes nodes false ctx
  end.

(** [decode(node, root)] *)
Definition decode (node : Queryable) (root : treeNode) : outcome treeNode :=
  recursiveDecode (S (sizes (GetChildren node))) (GetChildren node) root.

(** The parsing closure of [EnumerateOptionalString], before [recover]. *)
Definition parse (optionalString : string) : outcome (option Queryable) :=
  Parsewith (MakeOptionalStringParser (S (String.length optionalString)))
            (NewScanner optionalString).

(** [EnumerateOptionalString] up to [f := root.Flatten()], for a given
    behaviour of the parsing closure. *)
Definition flattened_with (engine : string -> outcome (option Queryable))
  (optionalString : string) : outcome (result error (list rawString)) :=
  match engine optionalString with
  | Panic rcv => Done (Err (recovered rcv))
  | OutOfFuel => OutOfFuel
  | Done None => Panic NilDereference
  | Done (Some node) =>
      let parsedAs := GetValue node in
      if negb (String.length parsedAs =? String.length optionalString)
      then Done (Err (SyntaxError optionalString parsedAs))
      else
        root <- decode node newTreeNode ;;
        Done (Ok (Flatten root))
  end.

(** [out.Values().Collect()] for the set built from [xs]: every member once,
    in an order that the map-backed set does not fix. *)
Definition Collect (xs out : list string) : Prop :=
  NoDup out /\ forall x, In x out <-> In x xs.

(** The results that a call of [EnumerateOptionalString] can have. *)
Definition EnumerateOptionalString_with
  (engine : string -> outcome (option Queryable)) (optionalString : string)
  (res : outcome (result error (list string))) : Prop :=
  match flattened_with engine optionalString with
  | Done (Ok f) => exists out, res = Done (Ok out) /\ Collect (map String_ f) out
  | Done (Err e) => res = Done (Err e)
  | Panic why => res = Panic why
  | OutOfFuel => res = OutOfFuel
  end.

Definition EnumerateOptionalString := EnumerateOptionalString_with parse.

End flextime.


(** ** Package optionalstring (optional_string/parser.go)

    The file declares the grammar, [EnumerateOptionalStringRaw],
    [EnumerateOptionalString], [decode] and [recursiveDecode]; the tree and
    the tagged sequences it works on are declared elsewhere in the package. *)

Module optionalstring.
Import parsec grammar.

Inductive ValueType : Type :=
| Normal
| SingleQuoteEscaped
| SlashEscaped.

(** Modelled from the spec: the Literal Run, [{ text, origin }]; the
    declaration of [Value] is not in parser.go. *)
Record Value : Type := mkValue {
  origin : ValueType;
  text_of : string
}.

(** Modelled from the spec: the Tagged Sequence, an ordered list of Literal
    Runs; the declaration of [RawString] is not in parser.go. *)
Definition RawString := list Value.

(** Modelled from the spec: the Expansion Node,
    [{ content, isOptional, child, next }]; the declaration of [treeNode] and
    of its methods is not in parser.go. *)
Inductive treeNode : Type := mkTreeNode {
  child : option treeNode;
  next : option treeNode;
  content : RawString;
  isOptional : bool
}.

Definition newTreeNode : treeNode := mkTreeNode None None [] false.

(** Modelled from the spec: [Left()] is the [child], created when absent. *)
Definition Left (n : treeNode) : treeNode :=
  match child n with Some l => l | None => newTreeNode end.

(** Modelled from the spec: [Right()] is the [next], created when absent. *)
Definition Right (n : treeNode) : treeNode :=
  match next n with Some r => r | None => newTreeNode end.

(** Modelled from the spec: [AddValue] appends a run to the content. *)
Definition AddValue (n : treeNode) (v : string) (typ : ValueType) : treeNode :=
  mkTreeNode (child n) (next n) (content n ++ [mkValue typ v])%list (isOptional n).

(** Modelled from the spec: [SetAsOptional] marks the node optional. *)
Definition SetAsOptional (n : treeNode) : treeNode :=
  mkTreeNode (child n) (next n) (content n) true.

Definition set_left (n l : treeNode) : treeNode :=
  mkTreeNode (Some l) (next n) (content n) (isOptional n).

Definition set_right (n r : treeNode) : treeNode :=
  mkTreeNode (child n) (Some r) (content n) (isOptional n).

(** Modelled from the spec: a sequence renders by concatenating run text
    regardless of origin; [RawString.String] is not in parser.go. *)
Fixpoint String_ (rs : RawString) : string :=
  match rs with
  | [] => ""
  | v :: rest => text_of v ++ String_ rest
  end.

Definition rendersEmpty (rs : RawString) : bool := String.eqb (String_ rs) "".

(** Modelled from the spec: Flatten, steps 1 to 6 of section 4.2;
    [treeNode.Flatten] of this package is not in parser.go. *)
Fixpoint Flatten (n : treeNode) : list RawString :=
  let cur := content n in
  let isLeaf :=
    match child n, next n with None, None => true | _, _ => false end in
  let base : list RawString :=
    if rendersEmpty cur && negb isLeaf then [] else [cur] in
  let withChild :=
    match child n with
    | Some c => (base ++ map (fun s => cur ++ s) (Flatten c))%list
    | None => base
    end in
  let withNext :=
    match next n with
    | Some nx =>
        let R := Flatten nx in
        if existsb (fun r => negb (rendersEmpty r)) R
        then flat_map (fun a => map (fun r => (a ++ r)%list) R) withChild
        else withChild
    | None => withChild
    end in
  if isOptional n && negb (rendersEmpty cur)
  then (withNext ++ [[]])%list
  else withNext.

(** [MakeOptionalStringParser] of package optionalstring: at the top level
    an optional group or [item]. *)
Definition MakeOptionalStringParser (depth : nat) : Parser :=
  Kleene OPTIONALSTRING
    (OrdChoice "items" [grammar.optional depth; item depth]).

Inductive error : Type :=
| SyntaxError (Input ParsedAs : string)
| recovered (rcv : panic_reason).

Fixpoint decode_chars (children : list Queryable) (ctx : treeNode)
  : outcome treeNode :=
  match children with
  | [] => Done ctx
  | v :: rest =>
      if String.eqb (GetName v) NORMALCHARS then
        decode_chars rest (AddValue ctx (GetValue v) Normal)
      else if String.eqb (GetName v) ESCAPEDCHAR then
        decode_chars rest (AddValue ctx (GetValue v) SingleQuoteEscaped)
      else
        Panic (Explicit ("incorrect implementation: " ++ GetName v ++ ", "
                           ++ GetValue v))
  end.

(** The [for i] loop of [recursiveDecode] from [nodes[i:] = rest] on;
    [rec] is [recursiveDecode] itself. *)
Fixpoint decode_loop (rec : list Queryable -> treeNode -> outcome treeNode)
  (rest : list Queryable) (onceFound : bool) (ctx : treeNode)
  : outcome treeNode :=
  match rest with
  | [] => Done ctx
  | node :: rest' =>
      if onceFound then
        r <- rec rest (Right ctx) ;;
        Done (set_right ctx r)
      else if String.eqb (GetName node) OPTIONALSTRING then
        ctx' <- rec (GetChildren node) ctx ;;
        decode_loop rec rest' onceFound ctx'
      else if String.eqb (GetName node) OPTIONAL then
        if negb onceFound then
          optNext <- rec (GetChildren node) (SetAsOptional (Left ctx)) ;;
          decode_loop rec rest' true (set_left ctx optNext)
        else
          Panic (Explicit ("incorrect implementation: " ++ GetName node ++ ", "
                             ++ GetValue node))
      else if String.eqb (GetName node) CHARS then
        ctx' <- decode_chars (GetChildren node) ctx ;;
        decode_loop rec rest' onceFound ctx'
      else if String.eqb (GetName node) ESCAPED then
        decode_loop rec rest' onceFound
          (AddValue ctx (GetValue node) SingleQuoteEscaped)
      else if String.eqb (GetName node) ITEMS then
        ctx' <- rec (GetChildren node) ctx ;;
        decode_loop rec rest' onceFound ctx'
      else decode_loop rec rest' onceFound ctx
  end.

Fixpoint recursiveDecode (fuel : nat) (nodes : list Queryable) (ctx : treeNode)
  : outcome treeNode :=
  match fuel with
  | 0 => OutOfFuel
  | S fuel' => decode_loop (recursiveDecode fuel') nodes false ctx
  end.

Definition decode (node : Queryable) : outcome treeNode :=
  recursiveDecode (S (sizes (GetChildren node))) (GetChildren node) newTreeNode.

Definition parse (optionalString : string) : outcome (option Queryable) :=
  Parsewith (MakeOptionalStringParser (S (String.length optionalString)))
            (NewScanner optionalString).

Definition EnumerateOptionalStringRaw_with
  (engine : string -> outcome (option Queryable)) (optionalString : string)
  : outcome (result error (list RawString)) :=
  match engine optionalString with
  | Panic rcv => Done (Err (recovered rcv))
  | OutOfFuel => OutOfFuel
  | Done None => Panic NilDereference
  | Done (Some node) =>
      let parsedAs := GetValue node in
      if negb (String.length parsedAs =? String.length optionalString)
      then Done (Err (SyntaxError optionalString parsedAs))
      else
        root <- decode node ;;
        Done (Ok (Flatten root))
  end.

Definition EnumerateOptionalStringRaw := EnumerateOptionalStringRaw_with parse.

Definition EnumerateOptionalString_with
  (engine : string -> outcome (option Queryable)) (optionalString : string)
  : outcome (result error (list string)) :=
  r <- EnumerateOptionalStringRaw_with engine optionalString ;;
  match r with
  | Err err => Done (Err err)
  | Ok raw => Done (Ok (map String_ raw))
  end.

Definition EnumerateOptionalString := EnumerateOptionalString_with parse.

End optionalstring.

(** ** Package flextime: translation of a tagged sequence

    [ReplaceTimeTokenRaw] ranges over an [optionalstring.RawString] and
    calls [Typ()] and [Unescaped()] on its values.  The type of the values
    and the two methods are declared outside the files at hand: they are
    parameters here. *)

Module rawtranslate.
Import lexer.

Section Raw.

Variable V : Type.
Variable Typ : V -> optionalstring.ValueType.
Variable Unescaped : V -> string.

(** The [for _, vv := range input] loop, with the output so far. *)
Fixpoint ReplaceTimeTokenRaw_loop (input : list V) (output : string)
  : outcome (result FormatError string) :=
  match input with
  | [] => Done (Ok output)
  | vv :: rest =>
      match Typ vv with
      | optionalstring.SingleQuoteEscaped | optionalstring.SlashEscaped =>
          ReplaceTimeTokenRaw_loop rest (output ++ Unescaped vv)
      | optionalstring.Normal =>
          r <- ReplaceTimeToken (Unescaped vv) ;;
          match r with
          | Err err => Done (Err err)
          | Ok replaced => ReplaceTimeTokenRaw_loop rest (output ++ replaced)
          end
      end
  end.

Definition ReplaceTimeTokenRaw (input : list V)
  : outcome (result FormatError string) :=
  ReplaceTimeTokenRaw_loop input "".

(** No value of the sequence is [Normal]. *)
Definition all_escaped (input : list V) : bool :=
  forallb (fun vv => match Typ vv with
                     | optionalstring.Normal => false
                     | _ => true
                     end) input.

End Raw.

End rawtranslate.

(** ** Predicates used to state the properties *)

Module props.
Import parsec grammar.

(** [c] occurs in [s]. *)
Fixpoint has_byte (c : ascii) (s : string) : bool :=
  match s with
  | EmptyString => false
  | String d rest => Ascii.eqb d c || has_byte c rest
  end.

(** A node without child and continuation. *)
Definition leaf (vs : list flextime.value) (t : flextime.treeNodeType)
  : flextime.treeNode :=
  flextime.mkTreeNode None None vs t.

(** The tree that [decode] builds for [a[b]]. *)
Definition tree_a_opt_b : flextime.treeNode :=
  flextime.mkTreeNode
    (Some (leaf [flextime.mkValue flextime.normal "b"] flextime.optional))
    None
    [flextime.mkValue flextime.normal "a"]
    flextime.text.

(** From [s] the parser read [v], skipping white space, and left [s']. *)
Definition reads (s v s' : string) : Prop :=
  exists k, String.length s = k + String.length v + String.length s'
            /\ (k = 0 -> s = v ++ s').

(** A parser that, when it matches, returns a node with property [P] and a
    non-empty value, which it read from the scanner. *)
Definition sound (P : Queryable -> Prop) (p : Parser) : Prop :=
  forall s n s', p s = Done (Some (n, s')) ->
    P n /\ GetValue n <> "" /\ reads s (GetValue n) s'.

(** A parser that returns on every scanner of at most [N] bytes. *)
Definition total_upto (N : nat) (p : Parser) : Prop :=
  forall s, String.length s <= N -> exists r, p s = Done r.

Definition total (p : Parser) : Prop := forall s, exists r, p s = Done r.

(** Children of a [CHARS] node. *)
Definition chars_leaf (n : Queryable) : bool :=
  match n with
  | Terminal name _ => String.eqb name NORMALCHARS || String.eqb name ESCAPEDCHAR
  | NonTerminal _ _ => false
  end.

(** The nodes that [item] returns: a [CHARS] node over text and escaped
    characters, an [ESCAPED] node, or an [OPTIONAL] node over a bracket, an
    [ITEMS] node of such nodes, and a bracket. *)
Fixpoint item_tree (n : Queryable) : bool :=
  match n with
  | Terminal _ _ => false
  | NonTerminal name cs =>
      if String.eqb name CHARS then forallb chars_leaf cs
      else if String.eqb name ESCAPED then true
      else if String.eqb name OPTIONAL then
        match cs with
        | [Terminal o _; NonTerminal i its; Terminal c _] =>
            String.eqb o OPENSQR && String.eqb i ITEMS && String.eqb c CLOSESQR
            && forallb item_tree its
        | _ => false
        end
      else false
  end.

Definition is_item (n : Queryable) : Prop := item_tree n = true.

(** [ctx] after [vs] was appended to its content. *)
Definition add_values (ctx : flextime.treeNode) (vs : list flextime.value)
  : flextime.treeNode :=
  flextime.mkTreeNode (flextime.left ctx) (flextime.right ctx)
    (flextime.node_value ctx ++ vs)%list (flextime.node_typ ctx).

(** The call returns or panics: the model does not run out of fuel. *)
Definition halts {A : Type} (m : outcome A) : Prop := m <> OutOfFuel.

(** A parsing closure that panics, as the grammar engine might. *)
Definition panicking_engine (_ : string) : outcome (option Queryable) :=
  Panic (Explicit "boom").

(** *** Predicates on the lexer *)

(** [nextChunk] with one more byte [c] in front of the text it has passed:
    the prefix of the chunk starts with [c], the offset of an error moves. *)
Definition shift (c : ascii)
  (r : outcome (result lexer.FormatError lexer.chunk))
  : outcome (result lexer.FormatError lexer.chunk) :=
  match r with
  | Done (Ok ch) =>
      Done (Ok (lexer.mkChunk (String c (lexer.prefix ch)) (lexer.found ch)
                              (lexer.suffix ch) (lexer.isToken ch)))
  | Done (Err e) =>
      Done (Err (lexer.mkFormatError (S (lexer.idx e)) (lexer.expected e)
                                     (lexer.actual e) (lexer.msg e)))
  | Panic why => Panic why
  | OutOfFuel => OutOfFuel
  end.

(** The text [s] starts with a byte that [nextChunk] passes over: not a
    backslash, not a quote, a dot that is not followed by [S], [9] or [0],
    a [-] that starts no zone spelling, or a byte that is no key of
    [tokenSerachTable]. *)
Definition literal_head (s : string) : bool :=
  match s with
  | EmptyString => false
  | String c _ =>
      negb (Ascii.eqb c lexer.backslash)
      && negb (Ascii.eqb c lexer.squote_byte)
      && (if Ascii.eqb c "."%char
          then negb (gostr.HasPrefix s ".S" || gostr.HasPrefix s ".9"
                     || gostr.HasPrefix s ".0")
          else true)
      && match lexer.lookup_byte lexer.tokenSerachTable c with
         | Some possibleSequences =>
             Ascii.eqb c "-"%char
             && match lexer.first_prefix s possibleSequences with
                | Some _ => false
                | None => true
                end
         | None => true
         end
  end.

(** Every position of [s] is passed over. *)
Fixpoint all_literal (s : string) : bool :=
  match s with
  | EmptyString => true
  | String _ rest => literal_head s && all_literal rest
  end.

(** The result of [ReplaceTimeToken] with [pre] in front of the output. *)
Definition prepend (pre : string)
  (r : outcome (result lexer.FormatError string))
  : outcome (result lexer.FormatError string) :=
  match r with
  | Done (Ok out) => Done (Ok (pre ++ out))
  | other => other
  end.

(** The longest prefix of [s] made of the byte [c]. *)
Fixpoint run_of (c : ascii) (s : string) : string :=
  match s with
  | String d rest => if Ascii.eqb d c then String d (run_of c rest) else EmptyString
  | EmptyString => EmptyString
  end.

(** [n] bytes [0]. *)
Fixpoint zeros (n : nat) : string :=
  match n with
  | 0 => EmptyString
  | S n' => String "0"%char (zeros n')
  end.

(** The byte after the dot of a fractional-second token. *)
Definition fraction_byte (c : ascii) : bool :=
  Ascii.eqb c "S"%char || Ascii.eqb c "9"%char || Ascii.eqb c "0"%char.

(** Every byte of [s] is [c]. *)
Fixpoint all_byte (c : ascii) (s : string) : bool :=
  match s with
  | EmptyString => true
  | String d rest => Ascii.eqb d c && all_byte c rest
  end.

(** [s] does not start with [c]. *)
Definition not_headed_by (c : ascii) (s : string) : bool :=
  match s with
  | EmptyString => true
  | String d _ => negb (Ascii.eqb d c)
  end.

(** Every byte of [pre] is passed over when [rest] follows [pre]. *)
Fixpoint literal_upto (pre rest : string) : bool :=
  match pre with
  | EmptyString => true
  | String c pre' => literal_head (String c (pre' ++ rest)) && literal_upto pre' rest
  end.

(** The call returns, or it fails the bounds check of a slice expression. *)
Definition returns_or_slice_panic {A : Type} (m : outcome A) : Prop :=
  match m with
  | Done _ => True
  | Panic SliceOutOfRange => True
  | _ => False
  end.

(** *** Predicates on the expansion tree *)

(** Every child ([left]) in the tree is marked optional. *)
Fixpoint groups_marked (n : flextime.treeNode) : bool :=
  match flextime.left n with
  | Some l => flextime.IsOptional l && groups_marked l
  | None => true
  end
  && match flextime.right n with
     | Some r => groups_marked r
     | None => true
     end.

(** The node has neither child nor continuation. *)
Definition childless (n : flextime.treeNode) : bool :=
  match flextime.left n, flextime.right n with
  | None, None => true
  | _, _ => false
  end.

(** [decode] left [ctx] its kind, and its marks if it had them. *)
Definition keeps (ctx t : flextime.treeNode) : Prop :=
  flextime.node_typ t = flextime.node_typ ctx
  /\ (groups_marked ctx = true -> groups_marked t = true).

(** Number of bracket groups of a parse tree: the nodes named [OPTIONAL]
    that [recursiveDecode] visits (it does not descend into [CHARS] and
    [ESCAPED] nodes). *)
Fixpoint bracket_groups (n : Queryable) : nat :=
  match n with
  | Terminal _ _ => 0
  | NonTerminal name children =>
      if String.eqb name CHARS then 0
      else if String.eqb name ESCAPED then 0
      else (if String.eqb name OPTIONAL then 1 else 0)
           + (fix groups (cs : list Queryable) : nat :=
                match cs with
                | [] => 0
                | c :: rest => bracket_groups c + groups rest
                end) children
  end.

Fixpoint bracket_groups_in (cs : list Queryable) : nat :=
  match cs with
  | [] => 0
  | c :: rest => bracket_groups c + bracket_groups_in rest
  end.

(** No byte of [s] is a bracket, a backslash or a quote. *)
Fixpoint no_special (s : string) : bool :=
  match s with
  | EmptyString => true
  | String c rest => negb (is_special c) && no_special rest
  end.

(** [s] is not empty, has no special byte and does not start with white
    space. *)
Definition plain_text (s : string) : bool :=
  match s with
  | EmptyString => false
  | String c _ => negb (is_ws c) && no_special s
  end.

(** A bracket: a special byte that ends a run of text and starts no
    escape. *)
Definition is_bracket (c : ascii) : Prop := c = "["%char \/ c = "]"%char.

(** The tree of a bracket group around the text [q]. *)
Definition group_of (q : string) : Queryable :=
  NonTerminal OPTIONAL
    [Terminal OPENSQR "[";
     NonTerminal ITEMS [NonTerminal CHARS [Terminal NORMALCHARS q]];
     Terminal CLOSESQR "]"].

(** The parse tree of the template [p[q]], for texts [p] and [q]. *)
Definition one_group_tree (p q : string) : Queryable :=
  NonTerminal OPTIONALSTRING
    [NonTerminal CHARS [Terminal NORMALCHARS p]; group_of q].

(** The statement for a call of [recursiveDecode] on the items of a group
    or of the template, with a context without child and continuation. *)
Definition counts_items (rec : list Queryable -> flextime.treeNode -> outcome flextime.treeNode)
  : Prop :=
  forall its ctx t,
    forallb item_tree its = true -> childless ctx = true ->
    rec its ctx = Done t ->
    flextime.optional_count t = flextime.optional_count ctx + bracket_groups_in its.

(** The statement for a call on the three children of a group. *)
Definition counts_group (rec : list Queryable -> flextime.treeNode -> outcome flextime.treeNode)
  : Prop :=
  forall o its c ctx t,
    forallb item_tree its = true -> childless ctx = true ->
    rec [Terminal OPENSQR o; NonTerminal ITEMS its; Terminal CLOSESQR c] ctx = Done t ->
    flextime.optional_count t = flextime.optional_count ctx + bracket_groups_in its.

End props.

(** * Properties *)

(** * Facts about byte strings *)

Module strfacts.
Import props.

Lemma length_app (a b : string) :
  String.length (a ++ b) = String.length a + String.length b.
Proof. induction a as [|c a IH]; simpl; [reflexivity | now rewrite IH]. Qed.

Lemma app_nil_r (a : string) : a ++ "" = a.
Proof. induction a as [|c a IH]; simpl; [reflexivity | now rewrite IH]. Qed.

Lemma app_assoc (a b c : string) : (a ++ b) ++ c = a ++ (b ++ c).
Proof. induction a as [|x a IH]; simpl; [reflexivity | now rewrite IH]. Qed.

Lemma length_zero (a : string) : String.length a = 0 -> a = "".
Proof. destruct a; simpl; [reflexivity | discriminate]. Qed.

Lemma substring_all (a : string) : substring 0 (String.length a) a = a.
Proof. induction a as [|c a IH]; simpl; [reflexivity | now rewrite IH]. Qed.

Lemma substring_0_app (a b : string) :
  substring 0 (String.length a) (a ++ b) = a.
Proof.
  induction a as [|c a IH]; simpl.
  - destruct b; reflexivity.
  - now rewrite IH.
Qed.

Lemma substring_skip_app (a b : string) (n : nat) :
  substring (String.length a) n (a ++ b) = substring 0 n b.
Proof. induction a as [|c a IH]; simpl; [reflexivity | exact IH]. Qed.

Lemma get_app_l (a b : string) (i : nat) :
  i < String.length a -> String.get i (a ++ b) = String.get i a.
Proof. intros H. symmetry. now apply append_correct1. Qed.

Lemma get_app_r (a b : string) (i : nat) :
  String.get (String.length a + i) (a ++ b) = String.get i b.
Proof. rewrite Nat.add_comm. symmetry. apply append_correct2. Qed.

Lemma has_byte_get (c : ascii) (s : string) :
  has_byte c s = false ->
  forall i d, String.get i s = Some d -> Ascii.eqb d c = false.
Proof.
  induction s as [|x s IH]; simpl; intros H i d G.
  - discriminate.
  - apply orb_false_iff in H. destruct H as [Hx Hs].
    destruct i as [|i].
    + injection G as <-. exact Hx.
    + eapply IH; eauto.
Qed.

Lemma has_byte_app (c : ascii) (a b : string) :
  has_byte c (a ++ b) = has_byte c a || has_byte c b.
Proof.
  induction a as [|x a IH]; simpl; [reflexivity|].
  now rewrite IH, orb_assoc.
Qed.

Lemma get_lt (s : string) (i : nat) :
  i < String.length s -> exists c, String.get i s = Some c.
Proof.
  revert i. induction s as [|x s IH]; simpl; intros i H; [lia|].
  destruct i as [|i]; [eauto|]. apply IH. lia.
Qed.

End strfacts.

(** * The token lexer *)

Module lexer_facts.
Import gostr lexer props strfacts.

(** Bytes before the first quote are stepped over one by one. *)
Lemma scan_steps_over (p q : string) :
  has_byte squote_byte p = false ->
  forall d i, i + d = String.length p ->
    getUntilClosingSingleQuote_from (d + String.length q) i (p ++ q)
    = getUntilClosingSingleQuote_from (String.length q) (String.length p) (p ++ q).
Proof.
  intros Hp d. induction d as [|d IH]; intros i Hi.
  - simpl. replace i with (String.length p) by lia. reflexivity.
  - simpl. unfold index.
    destruct (get_lt p i ltac:(lia)) as [c Hc].
    rewrite get_app_l by lia. rewrite Hc. simpl.
    rewrite (has_byte_get _ _ Hp _ _ Hc).
    apply IH. lia.
Qed.

Lemma slice_to_app (a b : string) :
  slice_to (a ++ b) (String.length a) = Done a.
Proof.
  unfold slice_to. rewrite length_app.
  replace (String.length a <=? String.length a + String.length b) with true
    by (symmetry; apply Nat.leb_le; lia).
  now rewrite substring_0_app.
Qed.

Lemma HasSuffix_app (a suffix : string) : HasSuffix (a ++ suffix) suffix = true.
Proof.
  unfold HasSuffix. rewrite length_app.
  replace (String.length a + String.length suffix - String.length suffix)
    with (String.length a) by lia.
  rewrite substring_skip_app, substring_all, String.eqb_refl.
  replace (String.length suffix <=? String.length a + String.length suffix)
    with true by (symmetry; apply Nat.leb_le; lia).
  reflexivity.
Qed.

(** C4, the code at a quote preceded by three backslashes: whatever stands
    before (without a quote) and after, [getUntilClosingSingleQuote] closes
    the block at that quote, although the quote is escaped (an odd number of
    backslashes precedes it). *)
Theorem getUntilClosingSingleQuote_three_backslashes (p rest : string) :
  has_byte squote_byte p = false ->
  getUntilClosingSingleQuote (p ++ "\\\'" ++ rest) = Done (p ++ "\\\").
Proof.
  intros Hp.
  set (P := p ++ "\\\").
  assert (HP : has_byte squote_byte P = false).
  { unfold P. rewrite has_byte_app, Hp. reflexivity. }
  assert (HlenP : String.length P = String.length p + 3).
  { unfold P. rewrite length_app. reflexivity. }
  set (input := P ++ String "'"%char rest).
  assert (Hin : p ++ "\\\'" ++ rest = input).
  { unfold input, P. rewrite app_assoc. reflexivity. }
  assert (Hin2 : input = p ++ String "\"%char (String "\"%char (String "\"%char
                                 (String "'"%char rest)))).
  { rewrite <- Hin. reflexivity. }
  assert (Hin3 : input = (P ++ "'") ++ rest).
  { unfold input. rewrite app_assoc. reflexivity. }
  rewrite Hin. unfold getUntilClosingSingleQuote.
  replace (String.length input)
    with (String.length P + String.length (String "'"%char rest))
    by (unfold input; now rewrite length_app).
  unfold input at 1.
  rewrite (scan_steps_over P (String "'"%char rest) HP (String.length P) 0) by lia.
  fold input.
  cbn [String.length getUntilClosingSingleQuote_from].
  unfold index.
  replace (String.get (String.length P) input) with (Some squote_byte).
  2:{ unfold input. replace (String.length P) with (String.length P + 0) at 1 by lia.
      now rewrite get_app_r. }
  cbn [bind].
  replace (Ascii.eqb squote_byte squote_byte) with true by reflexivity.
  replace (String.length P =? 0) with false
    by (symmetry; apply Nat.eqb_neq; lia).
  replace (String.get (String.length P - 1) input) with (Some backslash).
  2:{ rewrite Hin2. replace (String.length P - 1) with (String.length p + 2) by lia.
      now rewrite get_app_r. }
  cbn [bind].
  replace (negb (Ascii.eqb backslash backslash)) with false by reflexivity.
  replace (String.length P + 1) with (String.length (P ++ "'"))
    by (rewrite length_app; reflexivity).
  rewrite Hin3 at 1. rewrite slice_to_app. cbn [bind].
  replace (P ++ "'") with ((p ++ "\") ++ "\\'")
    by (unfold P; rewrite !app_assoc; reflexivity).
  rewrite HasSuffix_app.
  unfold input. apply slice_to_app.
Qed.

Lemma getUntilClosingSingleQuote_three_backslashes_witness :
  getUntilClosingSingleQuote ("a" ++ "\\\'" ++ "b'") = Done ("a" ++ "\\\").
Proof.
  apply (getUntilClosingSingleQuote_three_backslashes "a" "b'").
  reflexivity.
Defined.

(** C5: translating [YYY] reads the token [YY] and then fails on the [Y]
    that is left, with a [FormatError] that carries the offset, the
    acceptable spellings and the text at the offset. *)
Theorem ReplaceTimeToken_YYY :
  nextChunk "YYY" = Done (Ok (mkChunk "" "YY" "Y" true))
  /\ ReplaceTimeToken "YYY"
     = Done (Err (mkFormatError 0 "must be prefixed with one of [YYYY YY]" "Y"
                    "maybe wrong len, like Y or YYY.")).
Proof. split; reflexivity. Qed.

(** *** [ReplaceTimeToken] does not loop *)

Lemma bind_Done_inv {A B : Type} (m : outcome A) (k : A -> outcome B) (b : B) :
  bind m k = Done b -> exists a, m = Done a /\ k a = Done b.
Proof. destruct m; simpl; intros H; try discriminate. eauto. Qed.

Lemma halts_bind {A B : Type} (m : outcome A) (k : A -> outcome B) :
  halts m -> (forall a, halts (k a)) -> halts (bind m k).
Proof.
  unfold halts. intros Hm Hk.
  destruct m; simpl; [apply Hk | discriminate | now exfalso].
Qed.

Lemma halts_Done {A : Type} (a : A) : halts (Done a).
Proof. discriminate. Qed.

Lemma halts_index (s : string) (i : nat) : halts (index s i).
Proof. unfold halts, index. destruct (String.get i s); discriminate. Qed.

Lemma halts_slice_from (s : string) (lo : nat) : halts (slice_from s lo).
Proof. unfold halts, slice_from. destruct (lo <=? _); discriminate. Qed.

Lemma halts_slice_to (s : string) (hi : nat) : halts (slice_to s hi).
Proof. unfold halts, slice_to. destruct (hi <=? _); discriminate. Qed.

Lemma halts_slice (s : string) (lo hi : nat) : halts (slice s lo hi).
Proof. unfold halts, slice. destruct (_ && _); discriminate. Qed.

Create HintDb halts.

#[local] Hint Resolve halts_Done halts_index halts_slice_from halts_slice_to
  halts_slice : halts.

Ltac halts_step :=
  repeat first
    [ apply halts_bind; [auto with halts | intros ?]
    | match goal with |- halts (if ?b then _ else _) => destruct b end
    | match goal with |- halts (match ?o with Some _ => _ | None => _ end) =>
        destruct o end
    | solve [auto with halts] ].

Lemma halts_getRepeatOf (input target : string) : halts (getRepeatOf input target).
Proof.
  unfold getRepeatOf. generalize 0 as i.
  induction (String.length input) as [|k IH]; intros i; cbn [getRepeatOf_from].
  - auto with halts.
  - halts_step.
Qed.

Lemma halts_getUntilClosingSingleQuote (input : string) :
  halts (getUntilClosingSingleQuote input).
Proof.
  unfold getUntilClosingSingleQuote. generalize 0 as i.
  induction (String.length input) as [|k IH]; intros i;
    cbn [getUntilClosingSingleQuote_from].
  - auto with halts.
  - halts_step.
Qed.

Lemma halts_toGoFmt (tt : timeFormatToken) : halts (toGoFmt tt).
Proof. unfold toGoFmt. halts_step; discriminate. Qed.

#[local] Hint Resolve halts_getRepeatOf halts_getUntilClosingSingleQuote
  halts_toGoFmt : halts.

Lemma halts_nextChunk (input : string) : halts (nextChunk input).
Proof.
  unfold nextChunk. generalize 0 as i.
  induction (String.length input) as [|k IH]; intros i; cbn [nextChunk_from].
  - auto with halts.
  - unfold search_table. halts_step.
Qed.

Lemma substring_length (s : string) :
  forall lo n, lo + n <= String.length s -> String.length (substring lo n s) = n.
Proof.
  induction s as [|c s IH]; intros lo n H; simpl in H.
  - assert (n = 0) by lia. subst. now destruct lo.
  - destruct lo as [|lo]; simpl.
    + destruct n as [|n]; [reflexivity|]. simpl. f_equal. apply IH. simpl. lia.
    + apply IH. lia.
Qed.

Lemma slice_from_length (s r : string) (lo : nat) :
  slice_from s lo = Done r ->
  lo <= String.length s /\ String.length r = String.length s - lo.
Proof.
  unfold slice_from. destruct (Nat.leb_spec lo (String.length s)); [|discriminate].
  intros E. injection E as <-. split; [assumption|].
  apply substring_length. lia.
Qed.

Lemma tokens_nonempty :
  forallb (fun e => forallb (fun t => negb (String.eqb t "")) (snd e))
          tokenSerachTable = true.
Proof. reflexivity. Qed.

Lemma lookup_byte_In {V : Type} (m : list (ascii * V)) (k : ascii) (v : V) :
  lookup_byte m k = Some v -> exists k', In (k', v) m.
Proof.
  induction m as [|[k' v'] m IH]; simpl; [discriminate|].
  destruct (Ascii.eqb k' k).
  - intros E. injection E as ->. eauto.
  - intros E. destruct (IH E) as [k0 H]. eauto.
Qed.

Lemma first_prefix_In (rest : string) (l : list timeFormatToken) (t : timeFormatToken) :
  first_prefix rest l = Some t -> In t l.
Proof.
  induction l as [|x l IH]; simpl; [discriminate|].
  destruct (HasPrefix rest x).
  - intros E. injection E as ->. now left.
  - auto.
Qed.

Lemma found_token_nonempty (c : ascii) (rest : string) l (t : timeFormatToken) :
  lookup_byte tokenSerachTable c = Some l ->
  first_prefix rest l = Some t -> 0 < String.length t.
Proof.
  intros Hl Hf. destruct (lookup_byte_In _ _ _ Hl) as [k' Hin].
  apply first_prefix_In in Hf.
  pose proof tokens_nonempty as H.
  rewrite forallb_forall in H. specialize (H _ Hin). simpl in H.
  rewrite forallb_forall in H. specialize (H _ Hf).
  destruct t; [discriminate | simpl; lia].
Qed.

Ltac bind_inv H :=
  let a := fresh "a" in
  let E := fresh "E" in
  apply bind_Done_inv in H; destruct H as [a [E H]].

(** Every chunk leaves less text than it was given. *)
Lemma nextChunk_from_shorter (k : nat) :
  forall i input ch,
    0 < String.length input ->
    nextChunk_from k i input = Done (Ok ch) ->
    String.length (suffix ch) < String.length input.
Proof.
  induction k as [|k IH]; intros i input ch Hpos H; cbn [nextChunk_from] in H.
  - injection H as <-. simpl. exact Hpos.
  - bind_inv H. bind_inv H.
    assert (Hsearch : search_table a a0 input i (nextChunk_from k (S i) input)
                      = Done (Ok ch) ->
                      String.length (suffix ch) < String.length input).
    { unfold search_table.
      destruct (lookup_byte tokenSerachTable a) as [l|] eqn:El; [|apply IH; auto].
      destruct (first_prefix a0 l) as [t|] eqn:Et.
      - intros H'. bind_inv H'. bind_inv H'. injection H' as <-. simpl.
        apply slice_from_length in E2. destruct E2 as [Hle ->].
        pose proof (found_token_nonempty _ _ _ _ El Et). lia.
      - destruct (Ascii.eqb a "-"%char); [apply IH; auto | discriminate]. }
    destruct (Ascii.eqb a backslash).
    + bind_inv H. bind_inv H. bind_inv H. injection H as <-. simpl.
      apply slice_from_length in E3. lia.
    + destruct (Ascii.eqb a "."%char).
      * destruct (HasPrefix a0 ".S" || HasPrefix a0 ".9" || HasPrefix a0 ".0");
          [|auto].
        bind_inv H. bind_inv H. bind_inv H. bind_inv H. bind_inv H.
        injection H as <-. simpl.
        apply slice_from_length in E5. simpl in E5. lia.
      * destruct (Ascii.eqb a squote_byte); [|auto].
        bind_inv H. bind_inv H. bind_inv H. bind_inv H.
        injection H as <-. simpl.
        apply slice_from_length in E4. simpl in E4. lia.
Qed.

Lemma halts_ReplaceTimeToken_loop (fuel : nat) :
  forall input output,
    String.length input <= fuel -> halts (ReplaceTimeToken_loop fuel input output).
Proof.
  induction fuel as [|fuel IH]; intros input output Hlen.
  - destruct input; [discriminate | simpl in Hlen; lia].
  - cbn [ReplaceTimeToken_loop].
    destruct (String.length input =? 0) eqn:E0; [discriminate|].
    apply Nat.eqb_neq in E0.
    destruct (nextChunk input) as [[ch|e]|why|] eqn:En; cbn [bind];
      try discriminate.
    + pose proof (nextChunk_from_shorter (String.length input) 0 input ch
                    ltac:(lia) En) as Hs.
      destruct (isToken ch).
      * apply halts_bind; [apply halts_toGoFmt|]. intros t. apply IH. lia.
      * apply IH. lia.
    + exfalso. exact (halts_nextChunk input En).
Qed.

(** The loop of [ReplaceTimeToken] ends on every input: the call returns a
    string, returns a [FormatError], or panics. *)
Lemma ReplaceTimeToken_halts (input : string) : halts (ReplaceTimeToken input).
Proof. apply halts_ReplaceTimeToken_loop. lia. Qed.

(** C8, the code on a lone backslash and on an unterminated quote:
    [nextChunk] slices past the end of the input and the call panics. *)
Theorem ReplaceTimeToken_panics :
  ReplaceTimeToken "\" = Panic SliceOutOfRange
  /\ ReplaceTimeToken "'abc" = Panic SliceOutOfRange
  /\ nextChunk "YYYY\" = Done (Ok (mkChunk "" "YYYY" "\" true))
  /\ ReplaceTimeToken "YYYY\" = Panic SliceOutOfRange.
Proof. repeat split; reflexivity. Qed.

End lexer_facts.

(** * The expansion tree of package flextime *)

Module tree_facts.
Import props flextime.




(** The two trees of the counterexample are what [decode] builds for the
    templates [""] and ["a[b]"]. *)
Lemma counterexample_trees_are_decoded :
  (exists node, parse "" = Done (Some node)
                /\ decode node newTreeNode = Done newTreeNode)
  /\ (exists node, parse "a[b]" = Done (Some node)
                   /\ decode node newTreeNode = Done tree_a_opt_b).
Proof. split; eexists; split; reflexivity. Qed.



End tree_facts.

(** * The grammar: what a parse reads and returns *)

Module parser_facts.
Import parsec grammar props strfacts.

Lemma reads_refl (s : string) : reads s "" s.
Proof. exists 0. split; [simpl; lia | reflexivity]. Qed.

Lemma reads_exact (v s' : string) : reads (v ++ s') v s'.
Proof. exists 0. split; [rewrite length_app; lia | reflexivity]. Qed.

Lemma reads_trans (s v1 s1 v2 s2 : string) :
  reads s v1 s1 -> reads s1 v2 s2 -> reads s (v1 ++ v2) s2.
Proof.
  intros [k1 [L1 E1]] [k2 [L2 E2]]. exists (k1 + k2). split.
  - rewrite length_app. lia.
  - intros Hk. assert (k1 = 0) by lia. assert (k2 = 0) by lia.
    rewrite (E1 H), (E2 H0). now rewrite app_assoc.
Qed.

Lemma reads_length (s v s' : string) :
  reads s v s' -> String.length v + String.length s' <= String.length s.
Proof. intros [k [L _]]. lia. Qed.

Lemma reads_shorter (s v s' : string) :
  reads s v s' -> v <> "" -> String.length s' < String.length s.
Proof.
  intros [k [L _]] Hv. destruct v; [congruence|]. simpl in L. lia.
Qed.

(** The length check of [EnumerateOptionalString]: a value as long as the
    input is the input. *)
Lemma reads_whole (s v s' : string) :
  reads s v s' -> String.length v = String.length s -> v = s /\ s' = "".
Proof.
  intros [k [L E]] Hl.
  assert (k = 0) by lia. assert (Hs : String.length s' = 0) by lia.
  apply length_zero in Hs. subst s'. rewrite (E H), app_nil_r. now split.
Qed.

Lemma SkipWS_reads (s : string) : reads s "" (SkipWS s).
Proof.
  induction s as [|c s IH]; simpl.
  - apply reads_refl.
  - destruct (is_ws c).
    + destruct IH as [k [L _]]. exists (S k). split; [simpl in *; lia | discriminate].
    + apply reads_refl.
Qed.

Lemma MatchString_app (lit s rest : string) :
  MatchString lit s = Some rest -> s = lit ++ rest.
Proof.
  revert s. induction lit as [|c lit IH]; simpl; intros s H.
  - now injection H as ->.
  - destruct s as [|d s]; [discriminate|].
    destruct (Ascii.eqb_spec c d); [|discriminate].
    subst d. now rewrite (IH _ H).
Qed.

Lemma take_drop (n : nat) (s : string) : take n s ++ drop n s = s.
Proof.
  revert s. induction n as [|n IH]; intros [|c s]; simpl; try reflexivity.
  now rewrite IH.
Qed.

Lemma match_escapedchar_app (s tok rest : string) :
  match_escapedchar s = Some (tok, rest) -> s = tok ++ rest /\ tok <> "".
Proof.
  unfold match_escapedchar. destruct s as [|c s]; [discriminate|].
  destruct (Ascii.eqb c "\"%char); [|discriminate].
  destruct s as [|d s]; [discriminate|].
  destruct (Ascii.eqb d "010"%char); [discriminate|].
  intros H. injection H as <- <-. split; [|discriminate].
  simpl append. now rewrite take_drop.
Qed.

Lemma span_normal_app (s : string) :
  s = fst (span_normal s) ++ snd (span_normal s).
Proof.
  induction s as [|c s IH]; simpl; [reflexivity|].
  destruct (is_special c); [reflexivity|].
  destruct (span_normal s) as [run after]. simpl in *. now rewrite <- IH.
Qed.

Lemma match_normalchars_app (s tok rest : string) :
  match_normalchars s = Some (tok, rest) -> s = tok ++ rest /\ tok <> "".
Proof.
  unfold match_normalchars. pose proof (span_normal_app s) as E.
  destruct (span_normal s) as [run after]. simpl in E.
  destruct run as [|c run]; [discriminate|].
  intros H. injection H as <- <-. split; [exact E | discriminate].
Qed.

Lemma GetValue_NonTerminal (name : string) (cs : list Queryable) :
  GetValue (NonTerminal name cs) = values cs.
Proof. induction cs as [|c cs IH]; simpl in *; [reflexivity | now rewrite IH]. Qed.

Lemma total_total_upto (N : nat) (p : Parser) : total p -> total_upto N p.
Proof. intros H s _. apply H. Qed.

Lemma sound_weaken (P Q : Queryable -> Prop) (p : Parser) :
  (forall n, P n -> Q n) -> sound P p -> sound Q p.
Proof. intros HPQ Hp s n s' H. destruct (Hp _ _ _ H) as [? [? ?]]. auto. Qed.

Lemma Atom_sound (P : Queryable -> Prop) (lit name : string) :
  lit <> "" -> P (Terminal name lit) -> sound P (Atom lit name).
Proof.
  intros Hlit HP s n s'. unfold Atom.
  destruct (MatchString lit (SkipWS s)) as [rest|] eqn:E; [|discriminate].
  intros H. injection H as <- <-. simpl. repeat split; auto.
  apply MatchString_app in E.
  replace lit with ("" ++ lit) by reflexivity.
  eapply reads_trans; [apply SkipWS_reads|]. rewrite E. apply reads_exact.
Qed.

Lemma Atom_total (lit name : string) : total (Atom lit name).
Proof. intros s. unfold Atom. destruct (MatchString _ _); eauto. Qed.

Lemma Token_sound (P : Queryable -> Prop) pattern (name : string) :
  (forall s tok rest, pattern s = Some (tok, rest) -> s = tok ++ rest /\ tok <> "") ->
  (forall tok, P (Terminal name tok)) ->
  sound P (Token pattern name).
Proof.
  intros Hpat HP s n s'. unfold Token.
  destruct (pattern (SkipWS s)) as [[tok rest]|] eqn:E; [|discriminate].
  intros H. injection H as <- <-. simpl.
  destruct (Hpat _ _ _ E) as [Es Ht]. repeat split; auto.
  replace tok with ("" ++ tok) by reflexivity.
  eapply reads_trans; [apply SkipWS_reads|]. rewrite Es. apply reads_exact.
Qed.

Lemma Token_total pattern (name : string) : total (Token pattern name).
Proof. intros s. unfold Token. destruct (pattern _) as [[? ?]|]; eauto. Qed.

Lemma OrdChoice_sound (P : Queryable -> Prop) (name : string) (ps : list Parser) :
  Forall (sound P) ps -> sound P (OrdChoice name ps).
Proof.
  induction 1 as [|p ps Hp _ IH]; intros s n s'; simpl.
  - discriminate.
  - destruct (p s) as [[[n0 s0]|]| |] eqn:E; simpl; try discriminate.
    + intros H. injection H as <- <-. eapply Hp; eauto.
    + apply IH.
Qed.

Lemma OrdChoice_total_upto (N : nat) (name : string) (ps : list Parser) :
  Forall (total_upto N) ps -> total_upto N (OrdChoice name ps).
Proof.
  induction 1 as [|p ps Hp _ IH]; intros s Hs; simpl.
  - eauto.
  - destruct (Hp s Hs) as [[[n0 s0]|] E]; rewrite E; simpl; eauto.
Qed.

Lemma repeat_loop_sound (P : Queryable -> Prop) (p : Parser) :
  sound P p ->
  forall fuel s ns s', repeat_loop p fuel s = Done (ns, s') ->
    Forall P ns /\ reads s (values ns) s' /\ (ns <> [] -> values ns <> "").
Proof.
  intros Hp. induction fuel as [|fuel IH]; intros s ns s'; simpl; [discriminate|].
  destruct (p s) as [[[n0 s0]|]| |] eqn:E; simpl; try discriminate.
  - destruct (repeat_loop p fuel s0) as [[ms s1]| |] eqn:E'; simpl; try discriminate.
    intros H. injection H as <- <-.
    destruct (Hp _ _ _ E) as [HP [Hv Hr]].
    destruct (IH _ _ _ E') as [HF [Hr' _]].
    repeat split.
    + now constructor.
    + simpl. eapply reads_trans; eauto.
    + intros _. simpl. destruct (GetValue n0); [congruence | discriminate].
  - intros H. injection H as <- <-. repeat split.
    + constructor.
    + apply reads_refl.
    + congruence.
Qed.

Lemma repeat_loop_total (P : Queryable -> Prop) (N : nat) (p : Parser) :
  sound P p -> total_upto N p ->
  forall fuel s, String.length s <= N -> String.length s < fuel ->
    exists r, repeat_loop p fuel s = Done r.
Proof.
  intros Hs Ht. induction fuel as [|fuel IH]; intros s HN Hf; [lia|].
  simpl. destruct (Ht s HN) as [[[n0 s0]|] E]; rewrite E; simpl; [|eauto].
  destruct (Hs _ _ _ E) as [_ [Hv Hr]].
  pose proof (reads_shorter _ _ _ Hr Hv) as Hlt.
  destruct (IH s0 ltac:(lia) ltac:(lia)) as [r E']. rewrite E'. simpl. eauto.
Qed.

Lemma Kleene_inv (name : string) (p : Parser) (s : Scanner) n s' :
  Kleene name p s = Done (Some (n, s')) ->
  exists ns, n = NonTerminal name ns
             /\ repeat_loop p (S (String.length s)) s = Done (ns, s').
Proof.
  unfold Kleene. destruct (repeat_loop p _ s) as [[ns s1]| |]; simpl; try discriminate.
  intros H. injection H as <- <-. eauto.
Qed.

Lemma Kleene_total_upto (P : Queryable -> Prop) (N : nat) (name : string) (p : Parser) :
  sound P p -> total_upto N p ->
  forall s, String.length s <= N -> exists n s', Kleene name p s = Done (Some (n, s')).
Proof.
  intros Hs Ht s HN. unfold Kleene.
  destruct (repeat_loop_total P N p Hs Ht (S (String.length s)) s HN ltac:(lia))
    as [[ns s1] E].
  rewrite E. simpl. eauto.
Qed.

Lemma Many_sound (P Q : Queryable -> Prop) (name : string) (p : Parser) :
  sound P p ->
  (forall ns, Forall P ns -> Q (NonTerminal name ns)) ->
  sound Q (Many name p).
Proof.
  intros Hp HQ s n s'. unfold Many.
  destruct (repeat_loop p _ s) as [[ns s1]| |] eqn:E; simpl; try discriminate.
  destruct ns as [|m ms]; [discriminate|].
  intros H. injection H as <- <-.
  destruct (repeat_loop_sound P p Hp _ _ _ _ E) as [HF [Hr Hv]].
  rewrite GetValue_NonTerminal. repeat split; auto.
  apply Hv. discriminate.
Qed.

Lemma Many_total_upto (P : Queryable -> Prop) (N : nat) (name : string) (p : Parser) :
  sound P p -> total_upto N p -> total_upto N (Many name p).
Proof.
  intros Hs Ht s HN. unfold Many.
  destruct (repeat_loop_total P N p Hs Ht (S (String.length s)) s HN ltac:(lia))
    as [[ns s1] E].
  rewrite E. simpl. destruct ns; eauto.
Qed.

Lemma Forall_forallb {A : Type} (f : A -> bool) (l : list A) :
  Forall (fun x => f x = true) l -> forallb f l = true.
Proof. intros H. apply forallb_forall. now apply Forall_forall. Qed.

Ltac each_parser := repeat apply Forall_cons; try apply Forall_nil.

Lemma char_sound : sound (fun n => chars_leaf n = true) char.
Proof.
  apply OrdChoice_sound. each_parser.
  - apply Token_sound; [apply match_escapedchar_app | reflexivity].
  - apply Token_sound; [apply match_normalchars_app | reflexivity].
Qed.

Lemma char_total : total char.
Proof.
  intros s. apply (OrdChoice_total_upto (String.length s)); [|lia].
  each_parser; apply total_total_upto; apply Token_total.
Qed.

Lemma chars_sound : sound is_item chars.
Proof.
  eapply Many_sound; [apply char_sound|].
  intros ns H. apply Forall_forallb in H. exact H.
Qed.

Lemma chars_total : total chars.
Proof.
  intros s. eapply (Many_total_upto _ (String.length s)); [apply char_sound| |lia].
  apply total_total_upto, char_total.
Qed.

Lemma charWithinEscape_sound : sound (fun _ => True) charWithinEscape.
Proof.
  apply OrdChoice_sound. each_parser.
  - apply Token_sound; [apply match_escapedchar_app | auto].
  - apply Token_sound; [apply match_normalchars_app | auto].
  - apply Atom_sound; [discriminate | auto].
  - apply Atom_sound; [discriminate | auto].
Qed.

Lemma charWithinEscape_total : total charWithinEscape.
Proof.
  intros s. apply (OrdChoice_total_upto (String.length s)); [|lia].
  each_parser; apply total_total_upto;
    first [apply Token_total | apply Atom_total].
Qed.

Lemma charsWithinEscape_total : total charsWithinEscape.
Proof.
  intros s.
  eapply (Many_total_upto _ (String.length s));
    [apply charWithinEscape_sound| |lia].
  apply total_total_upto, charWithinEscape_total.
Qed.

Lemma squote_sound : sound (fun n => n = Terminal SQUOTE "'") squote.
Proof. apply Atom_sound; [discriminate | reflexivity]. Qed.

Lemma escaped_sound : sound is_item escaped.
Proof.
  intros s n s'. unfold escaped, And. cbn [and_seq].
  destruct (squote s) as [[[q1 s1]|]| |] eqn:E1; simpl; try discriminate.
  destruct (charsWithinEscape s1) as [[[m s2]|]| |] eqn:E2; simpl; try discriminate.
  destruct (squote s2) as [[[q2 s3]|]| |] eqn:E3; simpl; try discriminate.
  intros H. injection H as <- <-.
  destruct (squote_sound _ _ _ E1) as [-> [_ R1]].
  destruct (squote_sound _ _ _ E3) as [-> [_ R3]].
  assert (Hm : sound (fun _ => True) charsWithinEscape).
  { eapply Many_sound; [apply charWithinEscape_sound | auto]. }
  destruct (Hm _ _ _ E2) as [_ [_ R2]].
  repeat split.
  - discriminate.
  - rewrite GetValue_NonTerminal. cbn [values].
    eapply reads_trans; [exact R1|].
    eapply reads_trans; [exact R2|].
    rewrite app_nil_r. exact R3.
Qed.

Lemma escaped_total : total escaped.
Proof.
  intros s. unfold escaped, And. cbn [and_seq].
  destruct (Atom_total "'" SQUOTE s) as [[[q1 s1]|] E1];
    unfold squote; rewrite E1; simpl; eauto.
  destruct (charsWithinEscape_total s1) as [[[m s2]|] E2]; rewrite E2; simpl; eauto.
  destruct (Atom_total "'" SQUOTE s2) as [[[q2 s3]|] E3]; rewrite E3; simpl; eauto.
Qed.

Lemma opensqr_sound : sound (fun n => n = Terminal OPENSQR "[") opensqr.
Proof. apply Atom_sound; [discriminate | reflexivity]. Qed.

Lemma closesqr_sound : sound (fun n => n = Terminal CLOSESQR "]") closesqr.
Proof. apply Atom_sound; [discriminate | reflexivity]. Qed.

Lemma item_sound_from (p : Parser) :
  sound is_item p -> sound is_item (OrdChoice ITEM [chars; escaped; p]).
Proof.
  intros Hp. apply OrdChoice_sound. each_parser;
    [apply chars_sound | apply escaped_sound | exact Hp].
Qed.

Lemma optional_sound (depth : nat) : sound is_item (optional depth).
Proof.
  induction depth as [|d IH]; intros s n s'; [discriminate|].
  cbn [optional]. unfold And. cbn [and_seq].
  destruct (opensqr s) as [[[o s1]|]| |] eqn:E1; cbn [bind]; try discriminate.
  destruct (Kleene ITEMS (OrdChoice ITEM [chars; escaped; optional d]) s1)
    as [[[m s2]|]| |] eqn:E2; cbn [bind]; try discriminate.
  destruct (closesqr s2) as [[[c s3]|]| |] eqn:E3; cbn [bind]; try discriminate.
  intros H. injection H as <- <-.
  destruct (opensqr_sound _ _ _ E1) as [-> [_ R1]].
  destruct (closesqr_sound _ _ _ E3) as [-> [_ R3]].
  apply Kleene_inv in E2. destruct E2 as [its [-> E2]].
  destruct (repeat_loop_sound is_item _ (item_sound_from _ IH) _ _ _ _ E2)
    as [HF [R2 _]].
  repeat split.
  - unfold is_item. cbn. now apply Forall_forallb.
  - discriminate.
  - rewrite GetValue_NonTerminal. cbn [values].
    rewrite GetValue_NonTerminal.
    eapply reads_trans; [exact R1|].
    eapply reads_trans; [exact R2|].
    rewrite app_nil_r. exact R3.
Qed.

Lemma item_sound (depth : nat) : sound is_item (item depth).
Proof. apply item_sound_from, optional_sound. Qed.

Lemma item_total_from (N : nat) (p : Parser) :
  total_upto N p -> total_upto N (OrdChoice ITEM [chars; escaped; p]).
Proof.
  intros Hp. apply OrdChoice_total_upto. each_parser;
    [apply total_total_upto, chars_total
    | apply total_total_upto, escaped_total | exact Hp].
Qed.

(** A nested group starts after a bracket was read, so [depth] calls
    suffice for a scanner shorter than [depth]. *)
Lemma optional_total (depth : nat) :
  forall N, N < depth -> total_upto N (optional depth).
Proof.
  induction depth as [|d IH]; intros N HN s Hs; [lia|].
  cbn [optional]. unfold And. cbn [and_seq].
  destruct (Atom_total "[" OPENSQR s) as [[[o s1]|] E1];
    unfold opensqr; rewrite E1; cbn [bind]; eauto.
  destruct (opensqr_sound _ _ _ E1) as [_ [Hv R1]].
  pose proof (reads_shorter _ _ _ R1 Hv) as Hlt.
  assert (Hd : String.length s1 < d) by lia.
  destruct (Kleene_total_upto is_item (String.length s1) ITEMS
              (OrdChoice ITEM [chars; escaped; optional d])
              (item_sound_from _ (optional_sound d))
              (item_total_from _ _ (IH _ Hd)) s1 (le_n _))
    as [m [s2 E2]].
  rewrite E2. cbn [bind].
  destruct (Atom_total "]" CLOSESQR s2) as [[[c s3]|] E3];
    unfold closesqr; rewrite E3; cbn [bind]; eauto.
Qed.

End parser_facts.

(** * Package flextime: parse, decode, flatten *)

Module flextime_facts.
Import parsec grammar props strfacts parser_facts flextime.

Lemma top_sound (depth : nat) :
  sound is_item (OrdChoice "items" [grammar.optional depth; chars]).
Proof.
  apply OrdChoice_sound. each_parser; [apply optional_sound | apply chars_sound].
Qed.

(** Every input parses to an [OPTIONALSTRING] node over item trees, whose
    value was read from the input. *)
Lemma parse_returns (input : string) :
  exists ns rest,
    parse input = Done (Some (NonTerminal OPTIONALSTRING ns))
    /\ Forall is_item ns
    /\ reads input (values ns) rest.
Proof.
  unfold parse, Parsewith, MakeOptionalStringParser, NewScanner.
  set (top := OrdChoice "items" [grammar.optional (S (String.length input)); chars]).
  assert (Ht : total_upto (String.length input) top).
  { apply OrdChoice_total_upto. each_parser.
    - apply optional_total. lia.
    - apply total_total_upto, chars_total. }
  destruct (Kleene_total_upto is_item _ OPTIONALSTRING top (top_sound _) Ht
              input (le_n _)) as [n [rest E]].
  rewrite E. cbn [bind].
  apply Kleene_inv in E. destruct E as [ns [-> E]].
  destruct (repeat_loop_sound is_item top (top_sound _) _ _ _ _ E) as [HF [R _]].
  exists ns, rest. auto.
Qed.

Lemma add_values_add (ctx : treeNode) (us vs : list value) :
  add_values (add_values ctx us) vs = add_values ctx (us ++ vs)%list.
Proof. unfold add_values. simpl. now rewrite <- List.app_assoc. Qed.

Lemma add_values_nil (ctx : treeNode) : add_values ctx [] = ctx.
Proof. destruct ctx. unfold add_values. simpl. now rewrite List.app_nil_r. Qed.

Lemma decode_chars_spec (cs : list Queryable) :
  forallb chars_leaf cs = true ->
  forall ctx, exists vs,
    decode_chars cs ctx = Done (add_values ctx vs) /\ String_ vs = values cs.
Proof.
  induction cs as [|c cs IH]; intros H ctx.
  - exists []. now rewrite add_values_nil.
  - cbn [forallb] in H. apply andb_true_iff in H. destruct H as [Hc Hcs].
    destruct c as [name v|]; [|discriminate]. cbn [chars_leaf] in Hc.
    cbn [decode_chars GetName GetValue].
    destruct (String.eqb name NORMALCHARS) eqn:E1.
    + destruct (IH Hcs (AddValue ctx v normal)) as [vs [E S]].
      exists (mkValue normal v :: vs). split.
      * rewrite E. f_equal. apply (add_values_add ctx [mkValue normal v] vs).
      * simpl. now rewrite S.
    + simpl in Hc. rewrite Hc.
      destruct (IH Hcs (AddValue ctx v singleQuoteEscaped)) as [vs [E S]].
      exists (mkValue singleQuoteEscaped v :: vs). split.
      * rewrite E. f_equal. apply (add_values_add ctx [mkValue singleQuoteEscaped v] vs).
      * simpl. now rewrite S.
Qed.

(** The three shapes of an item tree. *)
Lemma item_tree_cases (n : Queryable) :
  item_tree n = true ->
  (exists cs, n = NonTerminal CHARS cs /\ forallb chars_leaf cs = true)
  \/ (exists cs, n = NonTerminal ESCAPED cs)
  \/ (exists o its c, n = NonTerminal OPTIONAL
                            [Terminal OPENSQR o; NonTerminal ITEMS its;
                             Terminal CLOSESQR c]
                      /\ forallb item_tree its = true).
Proof.
  destruct n as [|name cs]; [discriminate|]. cbn [item_tree].
  destruct (String.eqb_spec name CHARS) as [->|_]; [eauto|].
  destruct (String.eqb_spec name ESCAPED) as [->|_]; [eauto|].
  destruct (String.eqb_spec name OPTIONAL) as [->|_]; [|discriminate].
  destruct cs as [|[o vo|] [|[|i its] [|[c vc|] [|]]]]; try discriminate.
  intros H. apply andb_true_iff in H. destruct H as [H Hits].
  apply andb_true_iff in H. destruct H as [H Hc].
  apply andb_true_iff in H. destruct H as [Ho Hi].
  apply String.eqb_eq in Ho, Hi, Hc. subst. right. right. eauto.
Qed.

Lemma size_pos (n : Queryable) : 0 < size n.
Proof. destruct n; simpl; lia. Qed.

Lemma size_NonTerminal (name : string) (cs : list Queryable) :
  size (NonTerminal name cs) = S (sizes cs).
Proof. reflexivity. Qed.

(** The loop of [recursiveDecode] returns on item trees, when the calls it
    makes return on item trees and on the children of an optional group. *)
Lemma decode_loop_total (rec : list Queryable -> treeNode -> outcome treeNode)
  (bound : nat) :
  (forall its ctx, forallb item_tree its = true -> sizes its < bound ->
     exists t, rec its ctx = Done t) ->
  (forall o its c ctx, forallb item_tree its = true ->
     sizes [Terminal OPENSQR o; NonTerminal ITEMS its; Terminal CLOSESQR c] < bound ->
     exists t, rec [Terminal OPENSQR o; NonTerminal ITEMS its; Terminal CLOSESQR c] ctx
               = Done t) ->
  forall nodes rest onceFound ctx,
    forallb item_tree rest = true ->
    (if onceFound : bool then sizes rest < bound else sizes rest <= bound) ->
    exists t, decode_loop rec nodes rest onceFound ctx = Done t.
Proof.
  intros H1 H2 nodes rest.
  induction rest as [|node rest IH]; intros onceFound ctx Hit Hsz.
  - simpl. eauto.
  - cbn [decode_loop]. destruct onceFound.
    + destruct (H1 _ (Right ctx) Hit Hsz) as [t E]. rewrite E. simpl. eauto.
    + cbn [forallb] in Hit. apply andb_true_iff in Hit. destruct Hit as [Hn Hrest].
      cbn [sizes] in Hsz. pose proof (size_pos node) as Hpos.
      destruct (item_tree_cases _ Hn)
        as [[cs [-> Hcs]] | [[cs ->] | [o [its [c [-> Hits]]]]]].
      * cbn [GetName GetChildren]. cbn -[decode_loop decode_chars].
        destruct (decode_chars_spec cs Hcs ctx) as [vs [E _]]. rewrite E.
        cbn [bind]. apply IH; [exact Hrest | lia].
      * cbn [GetName GetChildren]. cbn -[decode_loop GetValue AddValue].
        apply IH; [exact Hrest | lia].
      * cbn [GetName GetChildren]. cbn -[decode_loop sizes Left SetAsOptional set_left].
        rewrite size_NonTerminal in Hsz.
        destruct (H2 o its c (SetAsOptional (Left ctx)) Hits ltac:(lia)) as [t E].
        rewrite E. cbn [bind]. apply IH; [exact Hrest | lia].
Qed.

Lemma recursiveDecode_total (fuel : nat) :
  forall its ctx, forallb item_tree its = true -> sizes its < fuel ->
    exists t, recursiveDecode fuel its ctx = Done t.
Proof.
  induction fuel as [fuel IH] using lt_wf_ind. intros its ctx Hit Hsz.
  destruct fuel as [|f]; [lia|]. cbn [recursiveDecode].
  apply (decode_loop_total (recursiveDecode f) f); auto.
  - intros o its' c ctx' Hits Hsz'.
    destruct f as [|f']; [simpl in Hsz'; lia|].
    cbn [recursiveDecode].
    cbn -[recursiveDecode sizes].
    cbn [sizes] in Hsz'. rewrite size_NonTerminal in Hsz'. simpl size in Hsz'.
    destruct (IH f' ltac:(lia) its' ctx' Hits ltac:(lia)) as [t E].
    rewrite E. simpl. eauto.
  - lia.
Qed.

(** X25: were a node named [OPTIONALSTRING] ever met, the call would
    recurse on the same node list for ever. *)
Lemma recursiveDecode_OPTIONALSTRING_diverges (fuel : nat) :
  forall cs rest ctx,
    recursiveDecode fuel (NonTerminal OPTIONALSTRING cs :: rest) ctx = OutOfFuel.
Proof.
  induction fuel as [|f IH]; intros cs rest ctx; [reflexivity|].
  cbn [recursiveDecode decode_loop GetName].
  cbn -[recursiveDecode decode_loop]. now rewrite IH.
Qed.

Lemma decode_total (ns : list Queryable) (ctx : treeNode) :
  Forall is_item ns ->
  exists t, decode (NonTerminal OPTIONALSTRING ns) ctx = Done t.
Proof.
  intros H. unfold decode. cbn [GetChildren].
  apply recursiveDecode_total; [now apply Forall_forallb | lia].
Qed.

Lemma optional_groups_NonTerminal (name : string) (cs : list Queryable) :
  optional_groups (NonTerminal name cs)
  = (if String.eqb name OPTIONAL then 1 else 0) + optional_groups_in cs.
Proof. reflexivity. Qed.

(** Without an optional group the loop only appends to the content of the
    node, and what it appends renders as the value of the nodes. *)
Lemma decode_loop_flat (rec : list Queryable -> treeNode -> outcome treeNode)
  (nodes rest : list Queryable) :
  forall ctx,
    forallb item_tree rest = true ->
    optional_groups_in rest = 0 ->
    exists vs, decode_loop rec nodes rest false ctx = Done (add_values ctx vs)
               /\ String_ vs = values rest.
Proof.
  induction rest as [|node rest IH]; intros ctx Hit Hno.
  - exists []. now rewrite add_values_nil.
  - cbn [forallb] in Hit. apply andb_true_iff in Hit. destruct Hit as [Hn Hrest].
    cbn [optional_groups_in] in Hno.
    cbn [decode_loop values].
    destruct (item_tree_cases _ Hn)
      as [[cs [-> Hcs]] | [[cs ->] | [o [its [c [-> Hits]]]]]].
    + cbn [GetName GetChildren]. cbn -[decode_loop decode_chars GetValue].
      destruct (decode_chars_spec cs Hcs ctx) as [us [E Su]]. rewrite E.
      cbn [bind].
      destruct (IH (add_values ctx us) Hrest ltac:(lia)) as [vs [E' Sv]].
      exists (us ++ vs)%list. split.
      * rewrite E', add_values_add. reflexivity.
      * rewrite GetValue_NonTerminal, <- Su, <- Sv.
        clear. induction us as [|u us IHu]; simpl; [reflexivity|].
        now rewrite IHu, app_assoc.
    + cbn [GetName GetChildren]. cbn -[decode_loop GetValue AddValue].
      set (v := GetValue (NonTerminal ESCAPED cs)).
      destruct (IH (AddValue ctx v singleQuoteEscaped) Hrest ltac:(lia))
        as [vs [E' Sv]].
      exists (mkValue singleQuoteEscaped v :: vs). split.
      * rewrite E'. f_equal.
        apply (add_values_add ctx [mkValue singleQuoteEscaped v] vs).
      * simpl. now rewrite Sv.
    + rewrite optional_groups_NonTerminal in Hno. simpl in Hno. lia.
Qed.

Lemma Flatten_flat (vs : list value) :
  vs <> [] -> Flatten (add_values newTreeNode vs) = [vs].
Proof. destruct vs as [|v vs]; [congruence | reflexivity]. Qed.

Lemma Collect_singleton (x : string) (out : list string) :
  Collect [x] out <-> out = [x].
Proof.
  unfold Collect. split.
  - intros [Hnd Hin]. destruct out as [|a out].
    + exfalso. apply (proj2 (Hin x)). now left.
    + assert (Ha : a = x).
      { destruct (proj1 (Hin a) (or_introl eq_refl)) as [H|[]]. now symmetry. }
      subst a. destruct out as [|b out]; [reflexivity|]. exfalso.
      assert (Hb : b = x).
      { destruct (proj1 (Hin b) (or_intror (or_introl eq_refl))) as [H|[]].
        now symmetry. }
      subst b. inversion Hnd as [|? ? Hnot _]. apply Hnot. now left.
  - intros ->. split.
    + constructor; [intros [] | constructor].
    + tauto.
Qed.

End flextime_facts.

(** * Package optionalstring: parse and decode *)

Module optionalstring_facts.
Import parsec grammar props strfacts parser_facts optionalstring.

Lemma os_top_sound (depth : nat) :
  sound is_item (OrdChoice "items" [grammar.optional depth; item depth]).
Proof.
  apply OrdChoice_sound. each_parser; [apply optional_sound | apply item_sound].
Qed.

Lemma os_parse_returns (input : string) :
  exists ns rest,
    parse input = Done (Some (NonTerminal OPTIONALSTRING ns))
    /\ Forall is_item ns
    /\ reads input (values ns) rest.
Proof.
  unfold parse, Parsewith, MakeOptionalStringParser, NewScanner.
  set (d := S (String.length input)).
  set (top := OrdChoice "items" [grammar.optional d; item d]).
  assert (Hd : total_upto (String.length input) (grammar.optional d)).
  { apply optional_total. unfold d. lia. }
  assert (Ht : total_upto (String.length input) top).
  { apply OrdChoice_total_upto. each_parser; [exact Hd|].
    apply item_total_from. exact Hd. }
  destruct (Kleene_total_upto is_item _ OPTIONALSTRING top (os_top_sound _) Ht
              input (le_n _)) as [n [rest E]].
  rewrite E. cbn [bind].
  apply Kleene_inv in E. destruct E as [ns [-> E]].
  destruct (repeat_loop_sound is_item top (os_top_sound _) _ _ _ _ E) as [HF [R _]].
  exists ns, rest. auto.
Qed.

Lemma decode_chars_total (cs : list Queryable) :
  forallb chars_leaf cs = true ->
  forall ctx, exists t, decode_chars cs ctx = Done t.
Proof.
  induction cs as [|c cs IH]; intros H ctx.
  - simpl. eauto.
  - cbn [forallb] in H. apply andb_true_iff in H. destruct H as [Hc Hcs].
    destruct c as [name v|]; [|discriminate]. cbn [chars_leaf] in Hc.
    cbn [decode_chars GetName GetValue].
    destruct (String.eqb name NORMALCHARS) eqn:E1; [now apply IH|].
    simpl in Hc. rewrite Hc. now apply IH.
Qed.

Lemma os_decode_loop_total (rec : list Queryable -> treeNode -> outcome treeNode)
  (bound : nat) :
  (forall its ctx, forallb item_tree its = true -> sizes its < bound ->
     exists t, rec its ctx = Done t) ->
  (forall o its c ctx, forallb item_tree its = true ->
     sizes [Terminal OPENSQR o; NonTerminal ITEMS its; Terminal CLOSESQR c] < bound ->
     exists t, rec [Terminal OPENSQR o; NonTerminal ITEMS its; Terminal CLOSESQR c] ctx
               = Done t) ->
  forall rest onceFound ctx,
    forallb item_tree rest = true ->
    (if onceFound : bool then sizes rest < bound else sizes rest <= bound) ->
    exists t, decode_loop rec rest onceFound ctx = Done t.
Proof.
  intros H1 H2 rest.
  induction rest as [|node rest IH]; intros onceFound ctx Hit Hsz.
  - simpl. eauto.
  - cbn [decode_loop]. destruct onceFound.
    + destruct (H1 _ (Right ctx) Hit Hsz) as [t E]. rewrite E. simpl. eauto.
    + cbn [forallb] in Hit. apply andb_true_iff in Hit. destruct Hit as [Hn Hrest].
      cbn [sizes] in Hsz. pose proof (flextime_facts.size_pos node) as Hpos.
      destruct (flextime_facts.item_tree_cases _ Hn)
        as [[cs [-> Hcs]] | [[cs ->] | [o [its [c [-> Hits]]]]]].
      * cbn [GetName GetChildren]. cbn -[decode_loop decode_chars].
        destruct (decode_chars_total cs Hcs ctx) as [t E]. rewrite E.
        cbn [bind]. apply IH; [exact Hrest | lia].
      * cbn [GetName GetChildren]. cbn -[decode_loop GetValue AddValue].
        apply IH; [exact Hrest | lia].
      * cbn [GetName GetChildren]. cbn -[decode_loop sizes Left SetAsOptional set_left].
        rewrite flextime_facts.size_NonTerminal in Hsz.
        destruct (H2 o its c (SetAsOptional (Left ctx)) Hits ltac:(lia)) as [t E].
        rewrite E. cbn [bind]. apply IH; [exact Hrest | lia].
Qed.

Lemma os_recursiveDecode_total (fuel : nat) :
  forall its ctx, forallb item_tree its = true -> sizes its < fuel ->
    exists t, recursiveDecode fuel its ctx = Done t.
Proof.
  induction fuel as [fuel IH] using lt_wf_ind. intros its ctx Hit Hsz.
  destruct fuel as [|f]; [lia|]. cbn [recursiveDecode].
  apply (os_decode_loop_total (recursiveDecode f) f); auto.
  - intros o its' c ctx' Hits Hsz'.
    destruct f as [|f']; [simpl in Hsz'; lia|].
    cbn [recursiveDecode].
    cbn -[recursiveDecode sizes].
    cbn [sizes] in Hsz'. rewrite flextime_facts.size_NonTerminal in Hsz'.
    simpl size in Hsz'.
    destruct (IH f' ltac:(lia) its' ctx' Hits ltac:(lia)) as [t E].
    rewrite E. simpl. eauto.
  - lia.
Qed.

Lemma os_decode_total (ns : list Queryable) :
  Forall is_item ns ->
  exists t, decode (NonTerminal OPTIONALSTRING ns) = Done t.
Proof.
  intros H. unfold decode. cbn [GetChildren].
  apply os_recursiveDecode_total; [now apply Forall_forallb | lia].
Qed.

End optionalstring_facts.

(** * The claims on parsing, decoding and enumeration *)

Module claims.
Import parsec grammar props strfacts parser_facts.

(** A call of [EnumerateOptionalString] of package flextime reaches its
    [return]: the parse returns a node, and the tree is decoded when the
    length check passes. *)
Lemma flattened_returns (input : string) :
  exists r, flextime.flattened_with flextime.parse input = Done r.
Proof.
  destruct (flextime_facts.parse_returns input) as [ns [rest [E [HF _]]]].
  unfold flextime.flattened_with. rewrite E.
  destruct (negb _); [eauto|].
  destruct (flextime_facts.decode_total ns flextime.newTreeNode HF) as [t Ht].
  rewrite Ht. cbn [bind]. eauto.
Qed.

Lemma Collect_nodup (xs : list string) :
  flextime.Collect xs (nodup String.string_dec xs).
Proof.
  split; [apply NoDup_nodup | intros x; apply nodup_In].
Qed.

(** Every call has a result, and the result is a returned value. *)
Lemma EnumerateOptionalString_returns (input : string) :
  exists r, flextime.EnumerateOptionalString input (Done r).
Proof.
  unfold flextime.EnumerateOptionalString, flextime.EnumerateOptionalString_with.
  destruct (flattened_returns input) as [[f|e] E]; rewrite E.
  - exists (Ok (nodup String.string_dec (map flextime.String_ f))).
    eexists. split; [reflexivity | apply Collect_nodup].
  - exists (Err e). reflexivity.
Qed.

(** C10: on the parse tree of every input, [recursiveDecode] returns, in
    both packages; the children that it visits are item trees, none of them
    is named [OPTIONALSTRING], so the branch that recurses on the same node
    list is never taken. *)
Theorem recursiveDecode_terminates (input : string) :
  (exists ns t,
      flextime.parse input = Done (Some (NonTerminal OPTIONALSTRING ns))
      /\ Forall is_item ns
      /\ flextime.decode (NonTerminal OPTIONALSTRING ns) flextime.newTreeNode
         = Done t)
  /\ (exists ns t,
         optionalstring.parse input = Done (Some (NonTerminal OPTIONALSTRING ns))
         /\ Forall is_item ns
         /\ optionalstring.decode (NonTerminal OPTIONALSTRING ns) = Done t).
Proof.
  split.
  - destruct (flextime_facts.parse_returns input) as [ns [rest [E [HF _]]]].
    destruct (flextime_facts.decode_total ns flextime.newTreeNode HF) as [t Ht].
    exists ns, t. auto.
  - destruct (optionalstring_facts.os_parse_returns input) as [ns [rest [E [HF _]]]].
    destruct (optionalstring_facts.os_decode_total ns HF) as [t Ht].
    exists ns, t. auto.
Qed.

(** C2, counterexample: the backslash of [\Y] is kept in the rendering. *)
Lemma EnumerateOptionalString_keeps_backslash :
  flextime.EnumerateOptionalString "\Y" (Done (Ok ["\Y"]))
  /\ ~ flextime.EnumerateOptionalString "\Y" (Done (Ok ["Y"])).
Proof.
  split.
  - cbv. exists ["\Y"]. split; [reflexivity|].
    apply (proj2 (flextime_facts.Collect_singleton "\Y" ["\Y"])). reflexivity.
  - intros [out [E C]]. injection E as <-.
    apply flextime_facts.Collect_singleton in C. discriminate.
Qed.

(** C2, amended: a non-empty input that the grammar reads completely and
    that has no optional group yields exactly one string, the input itself,
    escape markers included. *)
Theorem EnumerateOptionalString_no_optional (input : string) (node : Queryable) :
  flextime.parse input = Done (Some node) ->
  String.length (GetValue node) = String.length input ->
  optional_groups node = 0 ->
  input <> "" ->
  forall res,
    flextime.EnumerateOptionalString input res <-> res = Done (Ok [input]).
Proof.
  intros Hparse Hlen Hno Hne res.
  destruct (flextime_facts.parse_returns input) as [ns [rest [E [HF R]]]].
  rewrite Hparse in E. injection E as ->.
  rewrite GetValue_NonTerminal in Hlen.
  destruct (reads_whole _ _ _ R Hlen) as [Hv _].
  rewrite flextime_facts.optional_groups_NonTerminal in Hno.
  destruct (flextime_facts.decode_loop_flat
              (flextime.recursiveDecode (sizes ns)) ns ns flextime.newTreeNode
              (Forall_forallb _ _ HF) ltac:(simpl in Hno; lia))
    as [vs [Ed Sv]].
  assert (Hvs : vs <> []).
  { intros ->. simpl in Sv. congruence. }
  unfold flextime.EnumerateOptionalString, flextime.EnumerateOptionalString_with,
    flextime.flattened_with.
  rewrite Hparse, GetValue_NonTerminal, Hv, Nat.eqb_refl. cbn [negb].
  unfold flextime.decode. cbn [GetChildren flextime.recursiveDecode].
  rewrite Ed. cbn [bind].
  rewrite (flextime_facts.Flatten_flat vs Hvs). cbn [map].
  rewrite Sv, Hv. split.
  - intros [out [-> C]]. apply flextime_facts.Collect_singleton in C. now subst.
  - intros ->. exists [input]. split; [reflexivity|].
    now apply flextime_facts.Collect_singleton.
Qed.

Lemma EnumerateOptionalString_no_optional_witness :
  flextime.EnumerateOptionalString "YYYY\Y" (Done (Ok ["YYYY\Y"])).
Proof.
  apply (proj2 (EnumerateOptionalString_no_optional "YYYY\Y"
           (NonTerminal OPTIONALSTRING
              [NonTerminal CHARS [Terminal NORMALCHARS "YYYY";
                                  Terminal ESCAPEDCHAR "\Y"]])
           eq_refl eq_refl eq_refl ltac:(discriminate) _)).
  reflexivity.
Defined.

Lemma flattened_nested :
  flextime.flattened_with flextime.parse "a[b[c]]"
  = Done (Ok (let a := flextime.mkValue flextime.normal "a" in
              let b := flextime.mkValue flextime.normal "b" in
              let c := flextime.mkValue flextime.normal "c" in
              [[a]; [a; b]; [a; b; c]; [a; b]; [a]])).
Proof. reflexivity. Qed.

(** C3: every result of expanding [a[b[c]]] holds exactly the renderings
    [a], [ab] and [abc], each once; [ac] is not among them. *)
Theorem EnumerateOptionalString_nested res :
  flextime.EnumerateOptionalString "a[b[c]]" res ->
  exists out,
    res = Done (Ok out)
    /\ NoDup out
    /\ (forall x, In x out <-> x = "a" \/ x = "ab" \/ x = "abc")
    /\ ~ In "ac" out.
Proof.
  unfold flextime.EnumerateOptionalString, flextime.EnumerateOptionalString_with.
  rewrite flattened_nested. intros [out [-> [Hnd Hin]]].
  exists out. repeat split; auto.
  - intros H. apply Hin in H. simpl in H. intuition auto.
  - intros H. apply Hin. simpl. intuition auto.
  - intros H. apply Hin in H. simpl in H. intuition discriminate.
Qed.

Lemma EnumerateOptionalString_nested_witness :
  exists out,
    Done (Ok ["a"; "ab"; "abc"])
    = (Done (Ok out) : outcome (result flextime.error (list string)))
    /\ NoDup out
    /\ (forall x, In x out <-> x = "a" \/ x = "ab" \/ x = "abc")
    /\ ~ In "ac" out.
Proof.
  apply (EnumerateOptionalString_nested (Done (Ok ["a"; "ab"; "abc"]))).
  unfold flextime.EnumerateOptionalString, flextime.EnumerateOptionalString_with.
  rewrite flattened_nested. exists ["a"; "ab"; "abc"]. split; [reflexivity|].
  split.
  - repeat constructor; simpl; intuition discriminate.
  - intros x. simpl. intuition auto.
Defined.

(** C6, counterexample: the error made from a recovered panic is not a
    [SyntaxError]. *)
Lemma recovered_panic_is_not_SyntaxError :
  flextime.EnumerateOptionalString_with panicking_engine "a"
    (Done (Err (flextime.recovered (Explicit "boom"))))
  /\ ~ (exists org parsedAs,
          flextime.EnumerateOptionalString_with panicking_engine "a"
            (Done (Err (flextime.SyntaxError org parsedAs)))).
Proof.
  split; [reflexivity|].
  intros [org [parsedAs H]]. cbv in H. discriminate.
Qed.

(** C6, amended: a panic of the parsing closure is recovered and returned
    to the caller as an error value made from the panic value; the call
    itself does not panic.  This holds in both packages. *)
Theorem engine_panic_is_returned_as_error
  (engine : string -> outcome (option Queryable)) (input : string)
  (rcv : panic_reason) :
  engine input = Panic rcv ->
  (forall res, flextime.EnumerateOptionalString_with engine input res
               <-> res = Done (Err (flextime.recovered rcv)))
  /\ optionalstring.EnumerateOptionalStringRaw_with engine input
     = Done (Err (optionalstring.recovered rcv))
  /\ optionalstring.EnumerateOptionalString_with engine input
     = Done (Err (optionalstring.recovered rcv)).
Proof.
  intros H.
  unfold flextime.EnumerateOptionalString_with, flextime.flattened_with,
    optionalstring.EnumerateOptionalString_with,
    optionalstring.EnumerateOptionalStringRaw_with.
  rewrite H. cbn [bind]. repeat split; auto.
Qed.

Lemma engine_panic_is_returned_as_error_witness :
  (forall res, flextime.EnumerateOptionalString_with panicking_engine "a" res
               <-> res = Done (Err (flextime.recovered (Explicit "boom"))))
  /\ optionalstring.EnumerateOptionalStringRaw_with panicking_engine "a"
     = Done (Err (optionalstring.recovered (Explicit "boom")))
  /\ optionalstring.EnumerateOptionalString_with panicking_engine "a"
     = Done (Err (optionalstring.recovered (Explicit "boom"))).
Proof.
  apply (engine_panic_is_returned_as_error panicking_engine "a" (Explicit "boom")).
  reflexivity.
Defined.

Lemma flattened_a_opt_b :
  flextime.flattened_with flextime.parse "a[b]"
  = Done (Ok (let a := flextime.mkValue flextime.normal "a" in
              let b := flextime.mkValue flextime.normal "b" in
              [[a]; [a; b]; [a]])).
Proof. reflexivity. Qed.

Lemma EnumerateOptionalString_a_opt_b (out : list string) :
  NoDup out -> (forall x, In x out <-> x = "a" \/ x = "ab") ->
  flextime.EnumerateOptionalString "a[b]" (Done (Ok out)).
Proof.
  intros Hnd Hin.
  unfold flextime.EnumerateOptionalString, flextime.EnumerateOptionalString_with.
  rewrite flattened_a_opt_b. exists out. split; [reflexivity|].
  split; [exact Hnd|]. intros x. rewrite Hin. simpl. intuition auto.
Qed.

(** C7, counterexample: two calls on [a[b]] may return the same strings in
    different orders. *)
Lemma EnumerateOptionalString_order_not_fixed :
  ~ (forall r1 r2,
       flextime.EnumerateOptionalString "a[b]" r1 ->
       flextime.EnumerateOptionalString "a[b]" r2 -> r1 = r2).
Proof.
  intros H.
  assert (H1 : flextime.EnumerateOptionalString "a[b]" (Done (Ok ["a"; "ab"]))).
  { apply EnumerateOptionalString_a_opt_b.
    - repeat constructor; simpl; intuition discriminate.
    - intros x. simpl. intuition auto. }
  assert (H2 : flextime.EnumerateOptionalString "a[b]" (Done (Ok ["ab"; "a"]))).
  { apply EnumerateOptionalString_a_opt_b.
    - repeat constructor; simpl; intuition discriminate.
    - intros x. simpl. intuition auto. }
  specialize (H _ _ H1 H2). discriminate.
Qed.

(** C7, amended: every call returns, and what two calls on the same input
    return is fixed by the grammar, [decode] and [Flatten].  When the grammar
    reads less than the template, both calls return the same [SyntaxError],
    with the template and the text that was read.  Otherwise [decode]
    returns a tree, and both calls return the renderings of [Flatten] of
    that tree, each once, possibly in different orders; with at most one
    rendering the two results are equal. *)
Theorem EnumerateOptionalString_deterministic_up_to_order (input : string) r1 r2 :
  flextime.EnumerateOptionalString input r1 ->
  flextime.EnumerateOptionalString input r2 ->
  exists node,
    flextime.parse input = Done (Some node)
    /\ ((String.length (GetValue node) < String.length input
         /\ r1 = Done (Err (flextime.SyntaxError input (GetValue node)))
         /\ r2 = r1)
        \/ (GetValue node = input
            /\ exists t out1 out2,
                flextime.decode node flextime.newTreeNode = Done t
                /\ r1 = Done (Ok out1) /\ r2 = Done (Ok out2)
                /\ NoDup out1 /\ NoDup out2
                /\ (forall x, In x out1
                              <-> In x (map flextime.String_ (flextime.Flatten t)))
                /\ Permutation out1 out2
                /\ (List.length out1 <= 1 -> r1 = r2))).
Proof.
  intros H1 H2.
  destruct (flextime_facts.parse_returns input) as [ns [rest [E [HF R]]]].
  exists (NonTerminal OPTIONALSTRING ns). split; [exact E|].
  unfold flextime.EnumerateOptionalString, flextime.EnumerateOptionalString_with,
    flextime.flattened_with in H1, H2.
  rewrite E in H1, H2. rewrite parser_facts.GetValue_NonTerminal in *.
  destruct (Nat.eqb_spec (String.length (values ns)) (String.length input))
    as [El|El]; cbn [negb] in H1, H2.
  - right. destruct (parser_facts.reads_whole _ _ _ R El) as [Ev _].
    split; [exact Ev|].
    destruct (flextime_facts.decode_total ns flextime.newTreeNode HF) as [t Ht].
    rewrite Ht in H1, H2. cbn [bind] in H1, H2.
    destruct H1 as [o1 [-> [N1 I1]]]. destruct H2 as [o2 [-> [N2 I2]]].
    assert (P : Permutation o1 o2).
    { apply NoDup_Permutation; auto. intros x. rewrite I1, I2. tauto. }
    exists t, o1, o2.
    split; [exact Ht|]. split; [reflexivity|]. split; [reflexivity|].
    split; [exact N1|]. split; [exact N2|]. split; [exact I1|].
    split; [exact P|].
    intros L. destruct o1 as [|a [|b o1]]; cbn [List.length] in L; [| |lia].
    + apply Permutation_nil in P. now subst o2.
    + apply Permutation_length_1_inv in P. now subst o2.
  - left. pose proof (parser_facts.reads_length _ _ _ R).
    split; [lia|]. split; [exact H1|]. now rewrite H1, H2.
Qed.

Lemma EnumerateOptionalString_deterministic_up_to_order_witness :
  exists node,
    flextime.parse "a[b]" = Done (Some node)
    /\ ((String.length (GetValue node) < String.length "a[b]"
         /\ Done (Ok ["a"; "ab"])
            = Done (Err (flextime.SyntaxError "a[b]" (GetValue node)))
         /\ Done (Ok ["ab"; "a"])
            = (Done (Ok ["a"; "ab"])
               : outcome (result flextime.error (list string))))
        \/ (GetValue node = "a[b]"
            /\ exists t out1 out2,
                flextime.decode node flextime.newTreeNode = Done t
                /\ Done (Ok ["a"; "ab"])
                   = (Done (Ok out1)
                      : outcome (result flextime.error (list string)))
                /\ Done (Ok ["ab"; "a"])
                   = (Done (Ok out2)
                      : outcome (result flextime.error (list string)))
                /\ NoDup out1 /\ NoDup out2
                /\ (forall x, In x out1
                              <-> In x (map flextime.String_ (flextime.Flatten t)))
                /\ Permutation out1 out2
                /\ (List.length out1 <= 1
                    -> Done (Ok ["a"; "ab"])
                       = (Done (Ok ["ab"; "a"])
                          : outcome (result flextime.error (list string)))))).
Proof.
  apply (EnumerateOptionalString_deterministic_up_to_order "a[b]"
           (Done (Ok ["a"; "ab"])) (Done (Ok ["ab"; "a"]))).
  - apply EnumerateOptionalString_a_opt_b.
    + repeat constructor; simpl; intuition discriminate.
    + intros x. simpl. intuition auto.
  - apply EnumerateOptionalString_a_opt_b.
    + repeat constructor; simpl; intuition discriminate.
    + intros x. simpl. intuition auto.
Defined.

(** C9, the two packages on a quoted block at the top level: package
    flextime reads nothing and reports a syntax error, package
    optionalstring reads the block and succeeds. *)
Theorem packages_disagree_on_quoted_block :
  flextime.parse "'ab'" = Done (Some (NonTerminal OPTIONALSTRING []))
  /\ flextime.EnumerateOptionalString "'ab'"
       (Done (Err (flextime.SyntaxError "'ab'" "")))
  /\ optionalstring.parse "'ab'"
     = Done (Some (NonTerminal OPTIONALSTRING
                     [NonTerminal ESCAPED
                        [Terminal SQUOTE "'";
                         NonTerminal CHARSWITHINESCAPE [Terminal NORMALCHARS "ab"];
                         Terminal SQUOTE "'"]]))
  /\ exists out, optionalstring.EnumerateOptionalString "'ab'" = Done (Ok out).
Proof.
  repeat split; try reflexivity.
  eexists. reflexivity.
Qed.

End claims.

(** * More on the token lexer *)

Module lexer_more.
Import gostr lexer props strfacts lexer_facts.

Lemma index_cons (c : ascii) (s : string) (i : nat) :
  index (String c s) (S i) = index s i.
Proof. reflexivity. Qed.

Lemma slice_from_cons (c : ascii) (s : string) (i : nat) :
  slice_from (String c s) (S i) = slice_from s i.
Proof. reflexivity. Qed.

Lemma slice_cons (c : ascii) (s : string) (lo hi : nat) :
  slice (String c s) (S lo) (S hi) = slice s lo hi.
Proof. reflexivity. Qed.

Lemma slice_to_cons (c : ascii) (s : string) (i : nat) :
  slice_to (String c s) (S i) = r <- slice_to s i ;; Done (String c r).
Proof.
  unfold slice_to. cbn [String.length]. change (S i <=? S (String.length s))
    with (i <=? String.length s).
  destruct (i <=? String.length s); reflexivity.
Qed.

Lemma search_table_shift (c a : ascii) (rest input : string) (i : nat) next :
  search_table a rest (String c input) (S i) (shift c next)
  = shift c (search_table a rest input i next).
Proof.
  unfold search_table.
  destruct (lookup_byte tokenSerachTable a) as [l|]; [|reflexivity].
  destruct (first_prefix rest l) as [t|].
  - rewrite slice_to_cons. change (S i + String.length t) with (S (i + String.length t)).
    rewrite slice_from_cons.
    destruct (slice_to input i); cbn [bind shift]; try reflexivity.
    destruct (slice_from input (i + String.length t)); reflexivity.
  - destruct (Ascii.eqb a "-"%char); reflexivity.
Qed.

Lemma nextChunk_from_shift (k : nat) :
  forall i input c,
    nextChunk_from k (S i) (String c input) = shift c (nextChunk_from k i input).
Proof.
  induction k as [|k IH]; intros i input c; [reflexivity|].
  cbn [nextChunk_from]. rewrite index_cons, slice_from_cons.
  destruct (index input i) as [a| |]; cbn [bind shift]; try reflexivity.
  destruct (slice_from input i) as [rest| |]; cbn [bind shift]; try reflexivity.
  rewrite IH, search_table_shift, slice_to_cons.
  change (S i + 1) with (S (i + 1)). change (S i + 2) with (S (i + 2)).
  rewrite slice_cons, !slice_from_cons.
  destruct (Ascii.eqb a backslash).
  { destruct (slice_to input i); cbn [bind shift]; try reflexivity.
    destruct (slice input (i + 1) (i + 2)); cbn [bind shift]; try reflexivity.
    destruct (slice_from input (i + 2)); reflexivity. }
  destruct (Ascii.eqb a "."%char).
  { destruct (HasPrefix rest ".S" || HasPrefix rest ".9" || HasPrefix rest ".0");
      [|reflexivity].
    destruct (slice_from input (i + 1)); cbn [bind shift]; try reflexivity.
    destruct (slice input (i + 1) (i + 2)); cbn [bind shift]; try reflexivity.
    destruct (getRepeatOf a0 a1) as [rep| |]; cbn [bind shift]; try reflexivity.
    destruct (slice_to input i); cbn [bind shift]; try reflexivity.
    change (S i + String.length ("." ++ rep)) with (S (i + String.length ("." ++ rep))).
    rewrite slice_from_cons.
    destruct (slice_from input (i + String.length ("." ++ rep))); reflexivity. }
  destruct (Ascii.eqb a squote_byte); [|reflexivity].
  destruct (slice_from input (i + 1)); cbn [bind shift]; try reflexivity.
  destruct (getUntilClosingSingleQuote a0) as [un| |]; cbn [bind shift];
    try reflexivity.
  destruct (slice_to input i); cbn [bind shift]; try reflexivity.
  change (S i + String.length ("'" ++ un ++ "'"))
    with (S (i + String.length ("'" ++ un ++ "'"))).
  rewrite slice_from_cons.
  destruct (slice_from input (i + String.length ("'" ++ un ++ "'"))); reflexivity.
Qed.

Lemma slice_from_0 (s : string) : slice_from s 0 = Done s.
Proof. unfold slice_from. simpl. now rewrite Nat.sub_0_r, substring_all. Qed.

Lemma nextChunk_head_shift (c : ascii) (input : string) :
  literal_head (String c input) = true ->
  nextChunk (String c input) = shift c (nextChunk input).
Proof.
  intros H. unfold nextChunk at 1. cbn [String.length nextChunk_from].
  change (index (String c input) 0) with (Done c : outcome ascii).
  rewrite slice_from_0. cbn [bind].
  rewrite nextChunk_from_shift. fold (nextChunk input).
  unfold literal_head in H.
  apply andb_true_iff in H. destruct H as [H Hk].
  apply andb_true_iff in H. destruct H as [H Hd].
  apply andb_true_iff in H. destruct H as [Hb Hq].
  apply negb_true_iff in Hb, Hq. rewrite Hb, Hq.
  assert (Hs : search_table c (String c input) (String c input) 0
                 (shift c (nextChunk input)) = shift c (nextChunk input)).
  { unfold search_table.
    destruct (lookup_byte tokenSerachTable c) as [l|]; [|reflexivity].
    apply andb_true_iff in Hk. destruct Hk as [Hm Hf]. rewrite Hm.
    destruct (first_prefix (String c input) l); [discriminate | reflexivity]. }
  destruct (Ascii.eqb c "."%char).
  - apply negb_true_iff in Hd. rewrite Hd. exact Hs.
  - exact Hs.
Qed.

(** X1: a byte that is passed over only moves what follows: the chunk of
    [c :: input] is the chunk of [input] with [c] in front of its prefix,
    and an error is reported one byte further. *)
Theorem nextChunk_literal_head (c : ascii) (input : string) :
  literal_head (String c input) = true ->
  nextChunk (String c input) = shift c (nextChunk input).
Proof. exact (nextChunk_head_shift c input). Qed.

Lemma nextChunk_literal_head_witness :
  nextChunk (String "T"%char "YYYY") = shift "T"%char (nextChunk "YYYY").
Proof. apply (nextChunk_literal_head "T"%char "YYYY"). reflexivity. Defined.

Lemma nextChunk_all_literal (s : string) :
  all_literal s = true -> nextChunk s = Done (Ok (mkChunk s "" "" false)).
Proof.
  induction s as [|c s IH]; intros H; [reflexivity|].
  cbn [all_literal] in H. apply andb_true_iff in H. destruct H as [Hh Ht].
  rewrite (nextChunk_head_shift c s Hh), (IH Ht). reflexivity.
Qed.

(** X2: a text in which every byte is passed over is returned unchanged. *)
Theorem ReplaceTimeToken_all_literal (input : string) :
  all_literal input = true -> ReplaceTimeToken input = Done (Ok input).
Proof.
  intros H. unfold ReplaceTimeToken.
  destruct input as [|c s]; [reflexivity|].
  cbn [String.length ReplaceTimeToken_loop Nat.eqb].
  rewrite (nextChunk_all_literal _ H). cbn [bind isToken prefix found suffix].
  destruct (String.length s); cbn [ReplaceTimeToken_loop String.length Nat.eqb];
    now rewrite app_nil_r.
Qed.

Lemma ReplaceTimeToken_all_literal_witness :
  ReplaceTimeToken "T: 12.5 - x" = Done (Ok "T: 12.5 - x").
Proof. apply (ReplaceTimeToken_all_literal "T: 12.5 - x"). reflexivity. Defined.

(** *** The output accumulates, and the fuel does not matter *)

Lemma prepend_prepend (a b : string) r :
  prepend a (prepend b r) = prepend (a ++ b) r.
Proof. destruct r as [[out|e]| |]; simpl; try reflexivity. now rewrite app_assoc. Qed.

Lemma prepend_nil r : prepend "" r = r.
Proof. destruct r as [[out|e]| |]; reflexivity. Qed.

Lemma loop_prepend (fuel : nat) :
  forall input out,
    ReplaceTimeToken_loop fuel input out
    = prepend out (ReplaceTimeToken_loop fuel input "").
Proof.
  induction fuel as [|fuel IH]; intros input out; cbn [ReplaceTimeToken_loop].
  - destruct (String.length input =? 0); simpl; [now rewrite app_nil_r | reflexivity].
  - destruct (String.length input =? 0); simpl; [now rewrite app_nil_r|].
    destruct (nextChunk input) as [[ch|e]| |]; cbn [bind prepend]; try reflexivity.
    destruct (isToken ch).
    + destruct (toGoFmt (found ch)) as [t| |]; cbn [bind prepend]; try reflexivity.
      rewrite (IH _ ((out ++ prefix ch) ++ t)), (IH _ (("" ++ prefix ch) ++ t)).
      rewrite prepend_prepend. simpl. now rewrite app_assoc.
    + rewrite (IH _ ((out ++ prefix ch) ++ found ch)),
        (IH _ (("" ++ prefix ch) ++ found ch)).
      rewrite prepend_prepend. simpl. now rewrite app_assoc.
Qed.

Lemma loop_fuel (f1 : nat) :
  forall f2 input out,
    String.length input <= f1 -> String.length input <= f2 ->
    ReplaceTimeToken_loop f1 input out = ReplaceTimeToken_loop f2 input out.
Proof.
  induction f1 as [|f1 IH]; intros f2 input out H1 H2.
  - assert (E : input = "") by (apply length_zero; lia). subst.
    destruct f2; reflexivity.
  - destruct f2 as [|f2].
    + assert (E : input = "") by (apply length_zero; lia). subst. reflexivity.
    + cbn [ReplaceTimeToken_loop].
      destruct (String.length input =? 0) eqn:E0; [reflexivity|].
      apply Nat.eqb_neq in E0.
      destruct (nextChunk input) as [[ch|e]| |] eqn:En; cbn [bind]; try reflexivity.
      pose proof (nextChunk_from_shorter (String.length input) 0 input ch
                    ltac:(lia) En) as Hs.
      destruct (isToken ch).
      * destruct (toGoFmt (found ch)); cbn [bind]; try reflexivity.
        apply IH; lia.
      * apply IH; lia.
Qed.

(** One round of the loop of [ReplaceTimeToken], for a chunk whose text is
    copied. *)
Lemma ReplaceTimeToken_copy_step (input pre fnd suf : string) :
  input <> "" ->
  nextChunk input = Done (Ok (mkChunk pre fnd suf false)) ->
  ReplaceTimeToken input = prepend (pre ++ fnd) (ReplaceTimeToken suf).
Proof.
  intros Hne En. unfold ReplaceTimeToken.
  pose proof (nextChunk_from_shorter (String.length input) 0 input _
                ltac:(destruct input; [congruence | simpl; lia]) En) as Hs.
  cbn [suffix] in Hs.
  destruct (String.length input) as [|n] eqn:El; [lia|].
  cbn [ReplaceTimeToken_loop]. rewrite El. cbn [Nat.eqb]. rewrite En.
  cbn [bind isToken prefix found suffix].
  rewrite loop_prepend.
  rewrite (loop_fuel n (String.length suf) suf "") by lia.
  reflexivity.
Qed.

(** One round of the loop, for a chunk that is a token. *)
Lemma ReplaceTimeToken_token_step (input pre tok suf g : string) :
  input <> "" ->
  nextChunk input = Done (Ok (mkChunk pre tok suf true)) ->
  toGoFmt tok = Done g ->
  ReplaceTimeToken input = prepend (pre ++ g) (ReplaceTimeToken suf).
Proof.
  intros Hne En Eg. unfold ReplaceTimeToken.
  pose proof (nextChunk_from_shorter (String.length input) 0 input _
                ltac:(destruct input; [congruence | simpl; lia]) En) as Hs.
  cbn [suffix] in Hs.
  destruct (String.length input) as [|n] eqn:El; [lia|].
  cbn [ReplaceTimeToken_loop]. rewrite El. cbn [Nat.eqb]. rewrite En.
  cbn [bind isToken prefix found suffix]. rewrite Eg. cbn [bind].
  rewrite loop_prepend.
  rewrite (loop_fuel n (String.length suf) suf "") by lia.
  reflexivity.
Qed.

(** X3: a backslash copies the byte that follows it, whatever it is, and the
    translation goes on behind that byte. *)
Theorem ReplaceTimeToken_backslash (c : ascii) (rest : string) :
  ReplaceTimeToken (String "\"%char (String c rest))
  = prepend (String c "") (ReplaceTimeToken rest).
Proof.
  apply (ReplaceTimeToken_copy_step _ "" (String c "") rest); [discriminate|].
  unfold nextChunk. cbn [String.length nextChunk_from].
  change (index (String "\"%char (String c rest)) 0) with (Done "\"%char : outcome ascii).
  rewrite slice_from_0. cbn [bind].
  change (Ascii.eqb "\"%char backslash) with true. cbv iota.
  unfold slice_to, slice, slice_from. cbn [String.length Nat.leb Nat.add andb Nat.sub].
  cbn [substring bind]. rewrite Nat.sub_0_r, substring_all.
  now destruct rest.
Qed.

(** *** A token at the head of the text *)

Lemma prefix_app (t s : string) :
  String.prefix t s = true -> exists suf, s = t ++ suf.
Proof.
  revert s. induction t as [|a t IH]; intros s H.
  - exists s. reflexivity.
  - destruct s as [|b s]; [simpl in H; discriminate|]. cbn [String.prefix] in H.
    destruct (ascii_dec a b) as [->|]; [|discriminate].
    destruct (IH _ H) as [suf ->]. exists suf. reflexivity.
Qed.

Lemma slice_from_app (a b : string) :
  slice_from (a ++ b) (String.length a) = Done b.
Proof.
  unfold slice_from. rewrite length_app.
  replace (String.length a <=? String.length a + String.length b) with true
    by (symmetry; apply Nat.leb_le; lia).
  rewrite substring_skip_app.
  replace (String.length a + String.length b - String.length a)
    with (String.length b) by lia.
  now rewrite substring_all.
Qed.

Lemma slice_to_0 (s : string) : slice_to s 0 = Done "".
Proof. unfold slice_to. simpl. now destruct s. Qed.

Lemma key_not_switch (c : ascii) l :
  lookup_byte tokenSerachTable c = Some l ->
  Ascii.eqb c backslash = false /\ Ascii.eqb c "."%char = false
  /\ Ascii.eqb c squote_byte = false.
Proof.
  intros H. repeat split.
  - destruct (Ascii.eqb_spec c backslash) as [->|]; [discriminate | reflexivity].
  - destruct (Ascii.eqb_spec c "."%char) as [->|]; [discriminate | reflexivity].
  - destruct (Ascii.eqb_spec c squote_byte) as [->|]; [discriminate | reflexivity].
Qed.

Lemma first_prefix_HasPrefix (rest : string) l t :
  first_prefix rest l = Some t -> HasPrefix rest t = true.
Proof.
  induction l as [|x l IH]; simpl; [discriminate|].
  destruct (HasPrefix rest x) eqn:E; [|exact IH].
  intros H. injection H as <-. exact E.
Qed.

Lemma tokens_translate :
  forallb (fun e => forallb (fun t => match lookup_string tokenTable t with
                                      | Some _ => true
                                      | None => false
                                      end) (snd e))
          tokenSerachTable = true.
Proof. reflexivity. Qed.

Lemma found_token_translates (c : ascii) (rest : string) l t :
  lookup_byte tokenSerachTable c = Some l ->
  first_prefix rest l = Some t ->
  exists g, lookup_string tokenTable t = Some g.
Proof.
  intros Hl Hf. destruct (lookup_byte_In _ _ _ Hl) as [k' Hin].
  apply first_prefix_In in Hf.
  pose proof tokens_translate as H.
  rewrite forallb_forall in H. specialize (H _ Hin). cbn [snd] in H.
  rewrite forallb_forall in H. specialize (H _ Hf). cbv beta in H.
  destruct (lookup_string tokenTable t) as [g|] eqn:E; [eauto | discriminate].
Qed.

Lemma nextChunk_head (c : ascii) (tl : string) :
  nextChunk (String c tl)
  = (if Ascii.eqb c backslash then
       pre <- slice_to (String c tl) 0 ;;
       fnd <- slice (String c tl) 1 2 ;;
       suf <- slice_from (String c tl) 2 ;;
       Done (Ok (mkChunk pre fnd suf false))
     else if Ascii.eqb c "."%char then
       if HasPrefix (String c tl) ".S" || HasPrefix (String c tl) ".9"
          || HasPrefix (String c tl) ".0"
       then
         tail <- slice_from (String c tl) 1 ;;
         target <- slice (String c tl) 1 2 ;;
         repeated <- getRepeatOf tail target ;;
         pre <- slice_to (String c tl) 0 ;;
         suf <- slice_from (String c tl) (String.length ("." ++ repeated)) ;;
         Done (Ok (mkChunk pre ("." ++ repeated) suf true))
       else search_table c (String c tl) (String c tl) 0
              (nextChunk_from (String.length tl) 1 (String c tl))
     else if Ascii.eqb c squote_byte then
       tail <- slice_from (String c tl) 1 ;;
       unescaped <- getUntilClosingSingleQuote tail ;;
       pre <- slice_to (String c tl) 0 ;;
       suf <- slice_from (String c tl) (String.length ("'" ++ unescaped ++ "'")) ;;
       Done (Ok (mkChunk pre unescaped suf false))
     else search_table c (String c tl) (String c tl) 0
            (nextChunk_from (String.length tl) 1 (String c tl))).
Proof.
  unfold nextChunk. cbn [String.length nextChunk_from].
  change (index (String c tl) 0) with (Done c : outcome ascii).
  rewrite slice_from_0. reflexivity.
Qed.

Lemma nextChunk_token_head (c : ascii) (tl : string) l t :
  lookup_byte tokenSerachTable c = Some l ->
  first_prefix (String c tl) l = Some t ->
  exists suf, String c tl = t ++ suf
              /\ nextChunk (String c tl) = Done (Ok (mkChunk "" t suf true)).
Proof.
  intros Hl Hf.
  destruct (prefix_app _ _ (first_prefix_HasPrefix _ _ _ Hf)) as [suf E].
  exists suf. split; [exact E|].
  rewrite nextChunk_head.
  destruct (key_not_switch c l Hl) as [-> [-> ->]].
  unfold search_table. rewrite Hl, Hf, slice_to_0. cbn [bind Nat.add].
  rewrite E, slice_from_app. reflexivity.
Qed.

(** X4: a spelling of [tokenSerachTable] at the head of the text is replaced
    by its entry of [tokenTable], and the translation goes on behind it. *)
Theorem ReplaceTimeToken_token (c : ascii) (tl : string) l t :
  lookup_byte tokenSerachTable c = Some l ->
  first_prefix (String c tl) l = Some t ->
  exists g suf,
    lookup_string tokenTable t = Some g
    /\ String c tl = t ++ suf
    /\ ReplaceTimeToken (String c tl) = prepend g (ReplaceTimeToken suf).
Proof.
  intros Hl Hf.
  destruct (found_token_translates _ _ _ _ Hl Hf) as [g Hg].
  destruct (nextChunk_token_head c tl l t Hl Hf) as [suf [E En]].
  exists g, suf. repeat split; auto.
  apply (ReplaceTimeToken_token_step _ "" t suf g); [discriminate | exact En|].
  unfold toGoFmt. now rewrite Hg.
Qed.

Lemma ReplaceTimeToken_token_witness :
  exists g suf,
    lookup_string tokenTable "MMM" = Some g
    /\ String "M"%char "MM-dd" = "MMM" ++ suf
    /\ ReplaceTimeToken (String "M"%char "MM-dd") = prepend g (ReplaceTimeToken suf).
Proof.
  apply (ReplaceTimeToken_token "M"%char "MM-dd"
           ["MMMM"; "MMM"; "MST"; "MM"; "M"] "MMM"); reflexivity.
Defined.

(** X5: a key of [tokenSerachTable] other than [-] at the head of the text,
    with none of its spellings, stops the translation with a [FormatError]
    at offset [0] that lists the spellings and carries the text. *)
Theorem ReplaceTimeToken_bad_spelling (c : ascii) (tl : string) l :
  lookup_byte tokenSerachTable c = Some l ->
  first_prefix (String c tl) l = None ->
  c <> "-"%char ->
  ReplaceTimeToken (String c tl)
  = Done (Err (mkFormatError 0
                 ("must be prefixed with one of " ++ sprint_slice l)
                 (String c tl)
                 "maybe wrong len, like Y or YYY.")).
Proof.
  intros Hl Hf Hc. unfold ReplaceTimeToken.
  cbn [String.length ReplaceTimeToken_loop Nat.eqb].
  rewrite nextChunk_head.
  destruct (key_not_switch c l Hl) as [-> [-> ->]].
  unfold search_table. rewrite Hl, Hf.
  apply Ascii.eqb_neq in Hc. rewrite Hc. reflexivity.
Qed.

Lemma ReplaceTimeToken_bad_spelling_witness :
  ReplaceTimeToken (String "H"%char ":mm")
  = Done (Err (mkFormatError 0
                 ("must be prefixed with one of " ++ sprint_slice ["HH"])
                 (String "H"%char ":mm")
                 "maybe wrong len, like Y or YYY.")).
Proof.
  apply (ReplaceTimeToken_bad_spelling "H"%char ":mm" ["HH"]);
    [reflexivity | reflexivity | discriminate].
Defined.

(** *** A quoted block at the head of the text *)

Lemma getUntilClosingSingleQuote_closed (q rest : string) :
  has_byte squote_byte q = false ->
  has_byte backslash q = false ->
  getUntilClosingSingleQuote (q ++ String "'"%char rest) = Done q.
Proof.
  intros Hq Hb. unfold getUntilClosingSingleQuote. rewrite length_app.
  rewrite (scan_steps_over q (String "'"%char rest) Hq (String.length q) 0) by lia.
  cbn [String.length getUntilClosingSingleQuote_from].
  unfold index.
  replace (String.get (String.length q) (q ++ String "'"%char rest))
    with (Some squote_byte).
  2:{ replace (String.length q) with (String.length q + 0) at 1 by lia.
      now rewrite get_app_r. }
  cbn [bind]. change (Ascii.eqb squote_byte squote_byte) with true. cbv iota.
  destruct q as [|a q]; [reflexivity|].
  set (Q := String a q) in *.
  replace (String.length Q =? 0) with false by reflexivity.
  destruct (get_lt Q (String.length Q - 1) ltac:(simpl; lia)) as [d Hd].
  rewrite get_app_l by (simpl; lia). rewrite Hd. cbn [bind].
  rewrite (has_byte_get _ _ Hb _ _ Hd). cbn [negb bind].
  apply slice_to_app.
Qed.

(** X6: a quoted block without quote and backslash inside is copied without
    its quotes, whatever it holds, and the translation goes on behind it. *)
Theorem ReplaceTimeToken_quoted (q rest : string) :
  has_byte squote_byte q = false ->
  has_byte backslash q = false ->
  ReplaceTimeToken (String "'"%char (q ++ String "'"%char rest))
  = prepend q (ReplaceTimeToken rest).
Proof.
  intros Hq Hb.
  apply (ReplaceTimeToken_copy_step _ "" q rest); [discriminate|].
  rewrite nextChunk_head.
  change (Ascii.eqb "'"%char backslash) with false.
  change (Ascii.eqb "'"%char "."%char) with false.
  change (Ascii.eqb "'"%char squote_byte) with true. cbv iota.
  change 1 with (S 0) at 1. rewrite slice_from_cons, slice_from_0. cbn [bind].
  rewrite (getUntilClosingSingleQuote_closed q rest Hq Hb). cbn [bind].
  rewrite slice_to_0. cbn [bind].
  replace (String "'"%char (q ++ String "'"%char rest))
    with (("'" ++ q ++ "'") ++ rest)
    by (simpl; f_equal; now rewrite app_assoc).
  rewrite slice_from_app. reflexivity.
Qed.

Lemma ReplaceTimeToken_quoted_witness :
  ReplaceTimeToken (String "'"%char ("YYYY[T]" ++ String "'"%char "hh"))
  = prepend "YYYY[T]" (ReplaceTimeToken "hh").
Proof. apply (ReplaceTimeToken_quoted "YYYY[T]" "hh"); reflexivity. Defined.

(** *** Runs of one byte and fractional seconds *)

Lemma getRepeatOf_from_cons (k : nat) :
  forall i input d c,
    getRepeatOf_from k (S i) (String d input) (String c "")
    = r <- getRepeatOf_from k i input (String c "") ;; Done (String d r).
Proof.
  induction k as [|k IH]; intros i input d c; [reflexivity|].
  cbn [getRepeatOf_from String.length].
  change (S i + 1) with (S (i + 1)). rewrite slice_cons.
  destruct (slice input i (i + 1)) as [w| |]; cbn [bind]; try reflexivity.
  destruct (negb (String.eqb w (String c ""))).
  - replace (S (i + 1) - 1) with (S (i + 1 - 1)) by lia.
    now rewrite slice_to_cons.
  - apply IH.
Qed.

Lemma getRepeatOf_run (c : ascii) (s : string) :
  getRepeatOf s (String c "") = Done (run_of c s).
Proof.
  induction s as [|d s IH]; [reflexivity|].
  unfold getRepeatOf. cbn [String.length getRepeatOf_from].
  unfold slice at 1. cbn [Nat.add Nat.leb andb String.length Nat.sub substring].
  replace (substring 0 0 s) with "" by now destruct s.
  cbn [bind String.eqb run_of].
  destruct (Ascii.eqb d c).
  - replace (String.eqb "" "") with true by reflexivity. cbn [negb].
    rewrite getRepeatOf_from_cons. fold (getRepeatOf s (String c "")).
    now rewrite IH.
  - cbn [negb]. apply slice_to_0.
Qed.

Lemma run_of_split (c : ascii) (s : string) :
  exists rest, s = run_of c s ++ rest
               /\ all_byte c (run_of c s) = true
               /\ not_headed_by c rest = true.
Proof.
  induction s as [|d s [rest [E [Ha Hn]]]]; cbn [run_of].
  - exists "". auto.
  - destruct (Ascii.eqb d c) eqn:Ed.
    + exists rest. cbn [all_byte append]. rewrite Ed, Ha. now rewrite <- E.
    + exists (String d s). cbn. now rewrite Ed.
Qed.

(** X7: with a target of one byte, [getRepeatOf] returns the longest prefix
    of the text that is made of that byte; what follows starts with another
    byte or is empty. *)
Theorem getRepeatOf_longest_run (c : ascii) (input : string) :
  exists r rest,
    getRepeatOf input (String c "") = Done r
    /\ input = r ++ rest
    /\ all_byte c r = true
    /\ not_headed_by c rest = true.
Proof.
  destruct (run_of_split c input) as [rest H].
  exists (run_of c input), rest. split; [apply getRepeatOf_run | exact H].
Qed.

Lemma fraction_byte_cases (c : ascii) :
  fraction_byte c = true -> c = "S"%char \/ c = "9"%char \/ c = "0"%char.
Proof.
  unfold fraction_byte. intros H.
  apply orb_true_iff in H. destruct H as [H|H].
  - apply orb_true_iff in H. destruct H as [H|H]; apply Ascii.eqb_eq in H; auto.
  - apply Ascii.eqb_eq in H. auto.
Qed.

Lemma ReplaceAll1_run (s : string) :
  ReplaceAll1 (run_of "S"%char s) "S"%char "0"
  = zeros (String.length (run_of "S"%char s)).
Proof.
  induction s as [|d s IH]; [reflexivity|]. cbn [run_of].
  destruct (Ascii.eqb d "S"%char) eqn:E; [|reflexivity].
  cbn [ReplaceAll1 String.length zeros]. rewrite E. cbn [append]. now rewrite IH.
Qed.

Lemma HasPrefix_2 (a b : ascii) (x : string) :
  HasPrefix (String a (String b x)) (String a (String b "")) = true.
Proof.
  unfold HasPrefix. cbn [String.prefix].
  destruct (ascii_dec a a); [|congruence].
  destruct (ascii_dec b b); [|congruence].
  now destruct x.
Qed.

Lemma toGoFmt_fraction (c : ascii) (tl : string) :
  fraction_byte c = true ->
  toGoFmt (String "."%char (run_of c (String c tl)))
  = Done (String "."%char
            (if Ascii.eqb c "S"%char
             then zeros (String.length (run_of c (String c tl)))
             else run_of c (String c tl))).
Proof.
  intros H. cbn [run_of]. rewrite Ascii.eqb_refl.
  unfold toGoFmt.
  replace (lookup_string tokenTable (String "."%char (String c (run_of c tl))))
    with (@None goTimeFmtToken) by reflexivity.
  destruct (fraction_byte_cases c H) as [-> | [-> | ->]].
  - rewrite (HasPrefix_2 "."%char "S"%char).
    change (Ascii.eqb "S"%char "S"%char) with true. cbv iota.
    cbn [ReplaceAll1]. change (Ascii.eqb "."%char "S"%char) with false.
    change (Ascii.eqb "S"%char "S"%char) with true. cbv iota.
    cbn [append String.length zeros]. now rewrite ReplaceAll1_run.
  - replace (HasPrefix (String "."%char (String "9"%char (run_of "9"%char tl))) ".S")
      with false by reflexivity.
    rewrite (HasPrefix_2 "."%char "9"%char), orb_true_r. reflexivity.
  - replace (HasPrefix (String "."%char (String "0"%char (run_of "0"%char tl))) ".S")
      with false by reflexivity.
    rewrite (HasPrefix_2 "."%char "0"%char). reflexivity.
Qed.

(** X8: a dot followed by [S], [9] or [0] starts a fractional-second token
    that takes the whole run of that byte; a run of [S] is translated to as
    many [0], a run of [9] or [0] is kept, and the translation goes on behind
    the run. *)
Theorem ReplaceTimeToken_fraction (c : ascii) (tl : string) :
  fraction_byte c = true ->
  exists rest,
    String c tl = run_of c (String c tl) ++ rest
    /\ not_headed_by c rest = true
    /\ ReplaceTimeToken (String "."%char (String c tl))
       = prepend (String "."%char
                    (if Ascii.eqb c "S"%char
                     then zeros (String.length (run_of c (String c tl)))
                     else run_of c (String c tl)))
                 (ReplaceTimeToken rest).
Proof.
  intros H. destruct (run_of_split c (String c tl)) as [rest [E [_ Hn]]].
  exists rest. split; [exact E|]. split; [exact Hn|].
  apply (ReplaceTimeToken_token_step _ "" (String "."%char (run_of c (String c tl)))
           rest); [discriminate | | now apply toGoFmt_fraction].
  rewrite nextChunk_head.
  change (Ascii.eqb "."%char backslash) with false.
  change (Ascii.eqb "."%char "."%char) with true. cbv iota.
  replace (HasPrefix (String "."%char (String c tl)) ".S"
           || HasPrefix (String "."%char (String c tl)) ".9"
           || HasPrefix (String "."%char (String c tl)) ".0") with true
    by (destruct (fraction_byte_cases c H) as [-> | [-> | ->]];
        rewrite HasPrefix_2; now rewrite ?orb_true_r).
  change 1 with (S 0) at 1. rewrite slice_from_cons, slice_from_0. cbn [bind].
  unfold slice at 1. cbn [Nat.leb andb String.length Nat.sub substring].
  replace (substring 0 0 tl) with "" by now destruct tl.
  cbn [bind]. rewrite getRepeatOf_run. cbn [bind].
  rewrite slice_to_0. cbn [bind].
  replace (String "."%char (String c tl))
    with (("." ++ run_of c (String c tl)) ++ rest)
    by (cbn [append]; f_equal; symmetry; exact E).
  rewrite slice_from_app. reflexivity.
Qed.

Lemma ReplaceTimeToken_fraction_witness :
  exists rest,
    String "S"%char "SS Z" = run_of "S"%char (String "S"%char "SS Z") ++ rest
    /\ not_headed_by "S"%char rest = true
    /\ ReplaceTimeToken (String "."%char (String "S"%char "SS Z"))
       = prepend (String "."%char
                    (if Ascii.eqb "S"%char "S"%char
                     then zeros (String.length (run_of "S"%char (String "S"%char "SS Z")))
                     else run_of "S"%char (String "S"%char "SS Z")))
                 (ReplaceTimeToken rest).
Proof. apply (ReplaceTimeToken_fraction "S"%char "SS Z"). reflexivity. Defined.

(** *** Chunks in general *)

Lemma slice_from_inv (s : string) :
  forall i r, slice_from s i = Done r ->
    exists pre, s = pre ++ r /\ String.length pre = i.
Proof.
  induction s as [|c s IH]; intros i r H.
  - destruct i; [|unfold slice_from in H; simpl in H; discriminate].
    rewrite slice_from_0 in H. injection H as <-. exists "". auto.
  - destruct i as [|i].
    + rewrite slice_from_0 in H. injection H as <-. exists "". auto.
    + rewrite slice_from_cons in H. destruct (IH _ _ H) as [pre [E L]].
      exists (String c pre). simpl. now rewrite <- E, L.
Qed.

Lemma slice_to_from (s p r : string) (i : nat) :
  slice_to s i = Done p -> slice_from s i = Done r -> s = p ++ r.
Proof.
  intros Hp Hr. destruct (slice_from_inv _ _ _ Hr) as [pre [E L]].
  subst i. rewrite E in Hp. rewrite slice_to_app in Hp. injection Hp as <-.
  exact E.
Qed.

Lemma slice_from_add (s t x : string) (i : nat) :
  slice_from s i = Done (t ++ x) -> slice_from s (i + String.length t) = Done x.
Proof.
  intros H. destruct (slice_from_inv _ _ _ H) as [pre [E L]]. subst i.
  rewrite E, <- app_assoc, <- length_app. apply slice_from_app.
Qed.

Lemma slice_mid (s t x : string) (i : nat) :
  slice_from s i = Done (t ++ x) -> slice s i (i + String.length t) = Done t.
Proof.
  intros H. destruct (slice_from_inv _ _ _ H) as [pre [E L]]. subst i.
  unfold slice. rewrite E, !length_app.
  replace ((String.length pre <=? String.length pre + String.length t)
           && (String.length pre + String.length t
               <=? String.length pre + (String.length t + String.length x)))
    with true
    by (symmetry; apply andb_true_iff; split; apply Nat.leb_le; lia).
  replace (String.length pre + String.length t - String.length pre)
    with (String.length t) by lia.
  now rewrite substring_skip_app, substring_0_app.
Qed.

Lemma HasPrefix_fraction (s : string) :
  HasPrefix s ".S" || HasPrefix s ".9" || HasPrefix s ".0" = true ->
  exists c more, s = String "."%char (String c more) /\ fraction_byte c = true.
Proof.
  intros H. apply orb_true_iff in H. destruct H as [H|H].
  - apply orb_true_iff in H. destruct H as [H|H];
      destruct (prefix_app _ _ H) as [suf ->]; do 2 eexists;
      (split; [reflexivity | reflexivity]).
  - destruct (prefix_app _ _ H) as [suf ->]. do 2 eexists.
    split; reflexivity.
Qed.

Tactic Notation "bind_as" hyp(H) ident(a) ident(E) :=
  apply bind_Done_inv in H; destruct H as [a [E H]].

Lemma search_table_token (a : ascii) (rest input : string) (i : nat) next ch :
  slice_from input i = Done rest ->
  (next = Done (Ok ch) -> isToken ch = true ->
     (exists g, toGoFmt (found ch) = Done g)
     /\ input = prefix ch ++ found ch ++ suffix ch) ->
  search_table a rest input i next = Done (Ok ch) -> isToken ch = true ->
  (exists g, toGoFmt (found ch) = Done g)
  /\ input = prefix ch ++ found ch ++ suffix ch.
Proof.
  intros Er Hnext. unfold search_table.
  destruct (lookup_byte tokenSerachTable a) as [l|] eqn:El; [|exact Hnext].
  destruct (first_prefix rest l) as [t|] eqn:Et.
  - intros H _. bind_as H pre Epre. bind_as H suf Esuf. injection H as <-.
    cbn [prefix found suffix].
    destruct (found_token_translates _ _ _ _ El Et) as [g Hg].
    split; [exists g; unfold toGoFmt; now rewrite Hg|].
    destruct (prefix_app _ _ (first_prefix_HasPrefix _ _ _ Et)) as [x Ex].
    subst rest. rewrite (slice_from_add _ _ _ _ Er) in Esuf. injection Esuf as <-.
    exact (slice_to_from _ _ _ _ Epre Er).
  - destruct (Ascii.eqb a "-"%char); [exact Hnext | discriminate].
Qed.

Lemma nextChunk_from_token (k : nat) :
  forall i input ch,
    nextChunk_from k i input = Done (Ok ch) -> isToken ch = true ->
    (exists g, toGoFmt (found ch) = Done g)
    /\ input = prefix ch ++ found ch ++ suffix ch.
Proof.
  induction k as [|k IH]; intros i input ch H Htok; cbn [nextChunk_from] in H.
  - injection H as <-. discriminate.
  - bind_as H c Ec. bind_as H rest Er.
    pose proof (search_table_token c rest input i _ ch Er (IH (S i) input ch)) as Hs.
    destruct (Ascii.eqb c backslash).
    { bind_inv H. bind_inv H. bind_inv H. injection H as <-. discriminate. }
    destruct (Ascii.eqb c "."%char).
    2:{ destruct (Ascii.eqb c squote_byte); [|auto].
        bind_inv H. bind_inv H. bind_inv H. bind_inv H. injection H as <-.
        discriminate. }
    destruct (HasPrefix rest ".S" || HasPrefix rest ".9" || HasPrefix rest ".0")
      eqn:Ef; [|auto].
    destruct (HasPrefix_fraction _ Ef) as [d [more [-> Hd]]].
    bind_as H tail Etl. bind_as H target Etg. bind_as H rep Erp.
    bind_as H pre Epre. bind_as H suf Esuf.
    injection H as <-. cbn [prefix found suffix].
    pose proof (slice_from_add input "." (String d more) i Er) as E1.
    cbn [String.length] in E1. rewrite E1 in Etl.
    assert (Htl : tail = String d more) by congruence. subst tail.
    pose proof (slice_mid input (String d "") more (i + 1) E1) as E2.
    cbn [String.length] in E2.
    replace (i + 1 + 1) with (i + 2) in E2 by lia.
    rewrite E2 in Etg.
    assert (Htg : target = String d "") by congruence. subst target.
    rewrite getRepeatOf_run in Erp.
    destruct (run_of_split d (String d more)) as [x [Ex _]].
    set (R := run_of d (String d more)) in *.
    assert (Hrep : rep = R) by congruence. subst rep.
    split; [eexists; subst R; now apply toGoFmt_fraction|].
    assert (Er' : slice_from input i = Done (("." ++ R) ++ x)).
    { rewrite Er. f_equal. cbn [append]. f_equal. exact Ex. }
    rewrite (slice_from_add _ _ _ _ Er') in Esuf. injection Esuf as <-.
    exact (slice_to_from _ _ _ _ Epre Er').
Qed.

(** X9: the token of a chunk has a translation: [toGoFmt] does not reach
    its [panic] on what [nextChunk] returns. *)
Theorem nextChunk_token_translates (input : string) (ch : chunk) :
  nextChunk input = Done (Ok ch) -> isToken ch = true ->
  exists g, toGoFmt (found ch) = Done g.
Proof. intros H Ht. exact (proj1 (nextChunk_from_token _ _ _ _ H Ht)). Qed.

Lemma nextChunk_token_translates_witness :
  exists g, toGoFmt (found (mkChunk "T " "hh" ":mm" true)) = Done g.
Proof.
  apply (nextChunk_token_translates "T hh:mm" (mkChunk "T " "hh" ":mm" true));
    reflexivity.
Defined.

(** X10: a chunk with a token splits the text: the text is the prefix, the
    token and the suffix, in this order; nothing is dropped around a token. *)
Theorem nextChunk_token_partition (input : string) (ch : chunk) :
  nextChunk input = Done (Ok ch) -> isToken ch = true ->
  input = prefix ch ++ found ch ++ suffix ch.
Proof. intros H Ht. exact (proj2 (nextChunk_from_token _ _ _ _ H Ht)). Qed.

Lemma nextChunk_token_partition_witness :
  "T hh:mm" = prefix (mkChunk "T " "hh" ":mm" true)
              ++ found (mkChunk "T " "hh" ":mm" true)
              ++ suffix (mkChunk "T " "hh" ":mm" true).
Proof.
  apply (nextChunk_token_partition "T hh:mm" (mkChunk "T " "hh" ":mm" true));
    reflexivity.
Defined.

(** X11: on a text that is not empty, a chunk leaves a suffix that is shorter
    than the text: each round of the loop of [ReplaceTimeToken] consumes. *)
Theorem nextChunk_progress (input : string) (ch : chunk) :
  input <> "" ->
  nextChunk input = Done (Ok ch) ->
  String.length (suffix ch) < String.length input.
Proof.
  intros Hne H.
  assert (Hpos : 0 < String.length input)
    by (destruct input; [congruence | simpl; lia]).
  exact (nextChunk_from_shorter _ _ _ _ Hpos H).
Qed.

Lemma nextChunk_progress_witness :
  String.length (suffix (mkChunk "T " "hh" ":mm" true)) < String.length "T hh:mm".
Proof.
  apply (nextChunk_progress "T hh:mm" (mkChunk "T " "hh" ":mm" true));
    [discriminate | reflexivity].
Defined.

(** *** The outcomes of [ReplaceTimeToken] *)

Lemma rsp_bind {A B : Type} (m : outcome A) (k : A -> outcome B) :
  returns_or_slice_panic m ->
  (forall a, m = Done a -> returns_or_slice_panic (k a)) ->
  returns_or_slice_panic (bind m k).
Proof.
  destruct m as [a|why|]; simpl; intros Hm Hk; [now apply Hk | exact Hm | exact Hm].
Qed.

Lemma rsp_Done {A : Type} (a : A) : returns_or_slice_panic (Done a).
Proof. exact I. Qed.

Lemma rsp_index (s : string) (i : nat) :
  i < String.length s -> returns_or_slice_panic (index s i).
Proof. intros H. unfold index. destruct (get_lt s i H) as [c ->]. exact I. Qed.

Lemma rsp_slice_from (s : string) (lo : nat) : returns_or_slice_panic (slice_from s lo).
Proof. unfold slice_from. destruct (lo <=? _); exact I. Qed.

Lemma rsp_slice_to (s : string) (hi : nat) : returns_or_slice_panic (slice_to s hi).
Proof. unfold slice_to. destruct (hi <=? _); exact I. Qed.

Lemma rsp_slice (s : string) (lo hi : nat) : returns_or_slice_panic (slice s lo hi).
Proof. unfold slice. destruct (_ && _); exact I. Qed.

Lemma rsp_getRepeatOf (input target : string) :
  returns_or_slice_panic (getRepeatOf input target).
Proof.
  unfold getRepeatOf. generalize 0 as i.
  induction (String.length input) as [|k IH]; intros i; cbn [getRepeatOf_from].
  - exact I.
  - apply rsp_bind; [apply rsp_slice|]. intros w _.
    destruct (negb _); [apply rsp_slice_to | apply IH].
Qed.

Lemma rsp_getUntilClosingSingleQuote_from (k : nat) :
  forall i input, i + k = String.length input ->
    returns_or_slice_panic (getUntilClosingSingleQuote_from k i input).
Proof.
  induction k as [|k IH]; intros i input Hik; cbn [getUntilClosingSingleQuote_from].
  - exact I.
  - apply rsp_bind; [apply rsp_index; lia|]. intros c _.
    destruct (Ascii.eqb c squote_byte); [|apply IH; lia].
    destruct (i =? 0); [exact I|].
    apply rsp_bind; [apply rsp_index; lia|]. intros b _.
    apply rsp_bind.
    + destruct (negb _); [exact I|].
      apply rsp_bind; [apply rsp_slice_to|]. intros; exact I.
    + intros [|] _; [apply rsp_slice_to | apply IH; lia].
Qed.

Lemma rsp_search_table (a : ascii) (rest input : string) (i : nat) next :
  returns_or_slice_panic next ->
  returns_or_slice_panic (search_table a rest input i next).
Proof.
  intros Hn. unfold search_table.
  destruct (lookup_byte tokenSerachTable a) as [l|]; [|exact Hn].
  destruct (first_prefix rest l) as [t|].
  - apply rsp_bind; [apply rsp_slice_to|]. intros pre _.
    apply rsp_bind; [apply rsp_slice_from|]. intros; exact I.
  - destruct (Ascii.eqb a "-"%char); [exact Hn | exact I].
Qed.

Lemma rsp_nextChunk_from (k : nat) :
  forall i input, i + k = String.length input ->
    returns_or_slice_panic (nextChunk_from k i input).
Proof.
  induction k as [|k IH]; intros i input Hik; cbn [nextChunk_from].
  - exact I.
  - apply rsp_bind; [apply rsp_index; lia|]. intros c _.
    apply rsp_bind; [apply rsp_slice_from|]. intros rest _.
    assert (Hs : returns_or_slice_panic
                   (search_table c rest input i (nextChunk_from k (S i) input)))
      by (apply rsp_search_table, IH; lia).
    destruct (Ascii.eqb c backslash).
    { apply rsp_bind; [apply rsp_slice_to|]. intros pre _.
      apply rsp_bind; [apply rsp_slice|]. intros fnd _.
      apply rsp_bind; [apply rsp_slice_from|]. intros; exact I. }
    destruct (Ascii.eqb c "."%char).
    { destruct (_ || _); [|exact Hs].
      apply rsp_bind; [apply rsp_slice_from|]. intros tl _.
      apply rsp_bind; [apply rsp_slice|]. intros tg _.
      apply rsp_bind; [apply rsp_getRepeatOf|]. intros rep _.
      apply rsp_bind; [apply rsp_slice_to|]. intros pre _.
      apply rsp_bind; [apply rsp_slice_from|]. intros; exact I. }
    destruct (Ascii.eqb c squote_byte); [|exact Hs].
    apply rsp_bind; [apply rsp_slice_from|]. intros tl Etl.
    apply rsp_bind.
    { destruct (slice_from_inv _ _ _ Etl) as [pre [E L]].
      apply rsp_getUntilClosingSingleQuote_from. reflexivity. }
    intros un _.
    apply rsp_bind; [apply rsp_slice_to|]. intros pre _.
    apply rsp_bind; [apply rsp_slice_from|]. intros; exact I.
Qed.

Lemma rsp_ReplaceTimeToken_loop (fuel : nat) :
  forall input output,
    String.length input <= fuel ->
    returns_or_slice_panic (ReplaceTimeToken_loop fuel input output).
Proof.
  induction fuel as [|fuel IH]; intros input output Hlen.
  - destruct input; [exact I | simpl in Hlen; lia].
  - cbn [ReplaceTimeToken_loop].
    destruct (String.length input =? 0) eqn:E0; [exact I|].
    apply Nat.eqb_neq in E0.
    apply rsp_bind; [apply rsp_nextChunk_from; reflexivity|].
    intros [ch|e] En; [|exact I].
    pose proof (nextChunk_from_shorter (String.length input) 0 input ch
                  ltac:(lia) En) as Hs.
    destruct (isToken ch) eqn:Et.
    + destruct (proj1 (nextChunk_from_token _ _ _ _ En Et)) as [g Hg].
      rewrite Hg. cbn [bind]. apply IH. lia.
    + apply IH. lia.
Qed.

(** X12: on every text [ReplaceTimeToken] returns (a string or a
    [FormatError]) or fails the bounds check of a slice expression; it does
    not loop and it does not reach the [panic] of [toGoFmt]. *)
Theorem ReplaceTimeToken_outcomes (input : string) :
  returns_or_slice_panic (ReplaceTimeToken input).
Proof. apply rsp_ReplaceTimeToken_loop. lia. Qed.

(** *** Unterminated escapes *)

Lemma getUntilClosingSingleQuote_whole (s : string) :
  has_byte squote_byte s = false -> getUntilClosingSingleQuote s = Done s.
Proof.
  intros H. unfold getUntilClosingSingleQuote.
  pose proof (scan_steps_over s "" H (String.length s) 0 ltac:(lia)) as E.
  rewrite app_nil_r in E. cbn [String.length] in E. rewrite Nat.add_0_r in E.
  rewrite E. reflexivity.
Qed.

(** X13: in a text without a quote [getUntilClosingSingleQuote] finds no end
    of the block and returns the whole text. *)
Theorem getUntilClosingSingleQuote_no_quote (input : string) :
  has_byte squote_byte input = false ->
  getUntilClosingSingleQuote input = Done input.
Proof. apply getUntilClosingSingleQuote_whole. Qed.

Lemma getUntilClosingSingleQuote_no_quote_witness :
  getUntilClosingSingleQuote "abc\" = Done "abc\".
Proof. apply (getUntilClosingSingleQuote_no_quote "abc\"). reflexivity. Defined.

Lemma nextChunk_panic_after_literal (pre rest : string) why :
  literal_upto pre rest = true ->
  nextChunk rest = Panic why ->
  nextChunk (pre ++ rest) = Panic why.
Proof.
  intros H Hp. induction pre as [|c pre IH]; [exact Hp|].
  cbn [literal_upto] in H. apply andb_true_iff in H. destruct H as [Hh Ht].
  cbn [append]. rewrite (nextChunk_head_shift c _ Hh), (IH Ht). reflexivity.
Qed.

Lemma ReplaceTimeToken_first_panic (input : string) why :
  input <> "" -> nextChunk input = Panic why -> ReplaceTimeToken input = Panic why.
Proof.
  intros Hne Hp. unfold ReplaceTimeToken.
  destruct input as [|c s]; [congruence|].
  cbn [String.length ReplaceTimeToken_loop Nat.eqb]. now rewrite Hp.
Qed.

Lemma app_not_nil (pre : string) (c : ascii) (s : string) : pre ++ String c s <> "".
Proof. destruct pre; discriminate. Qed.

(** X14: a quote that is not closed makes [ReplaceTimeToken] fail the bounds
    check, whatever text that is passed over stands before it. *)
Theorem ReplaceTimeToken_unterminated_quote (pre q : string) :
  literal_upto pre (String "'"%char q) = true ->
  has_byte squote_byte q = false ->
  ReplaceTimeToken (pre ++ String "'"%char q) = Panic SliceOutOfRange.
Proof.
  intros Hl Hq.
  apply ReplaceTimeToken_first_panic; [apply app_not_nil|].
  apply nextChunk_panic_after_literal; [exact Hl|].
  rewrite nextChunk_head.
  change (Ascii.eqb "'"%char backslash) with false.
  change (Ascii.eqb "'"%char "."%char) with false.
  change (Ascii.eqb "'"%char squote_byte) with true. cbv iota.
  change 1 with (S 0) at 1. rewrite slice_from_cons, slice_from_0. cbn [bind].
  rewrite (getUntilClosingSingleQuote_whole q Hq). cbn [bind].
  rewrite slice_to_0. cbn [bind].
  unfold slice_from. cbn [append String.length]. rewrite length_app.
  cbn [String.length].
  replace (S (String.length q + 1) <=? S (String.length q)) with false
    by (symmetry; apply Nat.leb_gt; lia).
  reflexivity.
Qed.

Lemma ReplaceTimeToken_unterminated_quote_witness :
  ReplaceTimeToken ("12:" ++ String "'"%char "abc") = Panic SliceOutOfRange.
Proof. apply (ReplaceTimeToken_unterminated_quote "12:" "abc"); reflexivity. Defined.

(** X15: a backslash at the end of the text makes [ReplaceTimeToken] fail the
    bounds check, whatever text that is passed over stands before it. *)
Theorem ReplaceTimeToken_trailing_backslash (pre : string) :
  literal_upto pre "\" = true ->
  ReplaceTimeToken (pre ++ "\") = Panic SliceOutOfRange.
Proof.
  intros Hl.
  apply ReplaceTimeToken_first_panic; [apply app_not_nil|].
  apply nextChunk_panic_after_literal; [exact Hl | reflexivity].
Qed.

Lemma ReplaceTimeToken_trailing_backslash_witness :
  ReplaceTimeToken ("12:" ++ "\") = Panic SliceOutOfRange.
Proof. apply (ReplaceTimeToken_trailing_backslash "12:"). reflexivity. Defined.

End lexer_more.

(** * More on the expansion tree of package flextime *)

Module tree_more.
Import parsec grammar props strfacts parser_facts flextime flextime_facts.

Lemma String_app (a b : rawString) :
  String_ (a ++ b)%list = String_ a ++ String_ b.
Proof.
  induction a as [|v a IH]; simpl; [reflexivity|].
  now rewrite IH, app_assoc.
Qed.

(** Induction on the tree, with the hypothesis for the child and for the
    continuation. *)
Lemma treeNode_induction (P : treeNode -> Prop) :
  (forall l r vs t,
      match l with Some x => P x | None => True end ->
      match r with Some x => P x | None => True end ->
      P (mkTreeNode l r vs t)) ->
  forall n, P n.
Proof.
  intros step. fix IH 1. intros [l r vs t].
  apply step.
  - destruct l as [x|]; [apply IH | exact I].
  - destruct r as [x|]; [apply IH | exact I].
Qed.

Lemma Flatten_eq (l r : option treeNode) (vs : list value) (t : treeNodeType) :
  Flatten (mkTreeNode l r vs t)
  = let total1 :=
      ((match vs with [] => [] | _ :: _ => [vs] end)
       ++ match l with
          | Some l0 => map (fun s => vs ++ s) (Flatten l0)
          | None => []
          end)%list in
    let total2 :=
      match r with
      | Some rt =>
          if existsb nonEmpty (Flatten rt)
          then flat_map (fun rws => map (fun oo => (oo ++ rws)%list) total1)
                        (Flatten rt)
          else total1
      | None => total1
      end in
    if IsOptional (mkTreeNode l r vs t) && nonEmpty vs
    then (total2 ++ [[]])%list
    else total2.
Proof. destruct vs; destruct l; reflexivity. Qed.

(** X18: every sequence that [Flatten] returns starts with the content of
    the node, except the empty sequence that an optional node adds: what
    lies below a node is never given without the content of the node. *)
Theorem Flatten_starts_with_content (n : treeNode) (s : rawString) :
  In s (Flatten n) ->
  (exists rest, s = (node_value n ++ rest)%list)
  \/ (s = [] /\ IsOptional n = true /\ nonEmpty (node_value n) = true).
Proof.
  destruct n as [l r vs t]. rewrite Flatten_eq. cbn [node_value]. cbv zeta.
  set (total1 := ((match vs with [] => [] | _ :: _ => [vs] end)
                  ++ match l with
                     | Some l0 => map (fun s => vs ++ s) (Flatten l0)
                     | None => []
                     end)%list).
  assert (H1 : forall x, In x total1 -> exists rest, x = (vs ++ rest)%list).
  { intros x Hx. unfold total1 in Hx. apply in_app_or in Hx. destruct Hx as [Hx|Hx].
    - destruct vs; [destruct Hx|]. destruct Hx as [<-|[]]. exists [].
      now rewrite List.app_nil_r.
    - destruct l as [l0|]; [|destruct Hx].
      apply in_map_iff in Hx. destruct Hx as [y [<- _]]. eauto. }
  set (total2 := match r with
                 | Some rt =>
                     if existsb nonEmpty (Flatten rt)
                     then flat_map (fun rws => map (fun oo => (oo ++ rws)%list) total1)
                                   (Flatten rt)
                     else total1
                 | None => total1
                 end).
  assert (H2 : forall x, In x total2 -> exists rest, x = (vs ++ rest)%list).
  { intros x Hx. unfold total2 in Hx. destruct r as [rt|]; [|auto].
    destruct (existsb nonEmpty (Flatten rt)); [|auto].
    apply in_flat_map in Hx. destruct Hx as [rws [_ Hx]].
    apply in_map_iff in Hx. destruct Hx as [oo [<- Hoo]].
    destruct (H1 _ Hoo) as [rest ->]. exists (rest ++ rws)%list.
    now rewrite List.app_assoc. }
  destruct (IsOptional (mkTreeNode l r vs t) && nonEmpty vs) eqn:E; [|auto].
  intros Hs. apply in_app_or in Hs. destruct Hs as [Hs|[<-|[]]]; [auto|].
  right. apply andb_true_iff in E. tauto.
Qed.

Lemma Flatten_starts_with_content_witness :
  (exists rest, [mkValue normal "a"; mkValue normal "b"]
                = (node_value tree_a_opt_b ++ rest)%list)
  \/ ([mkValue normal "a"; mkValue normal "b"] = []
      /\ IsOptional tree_a_opt_b = true
      /\ nonEmpty (node_value tree_a_opt_b) = true).
Proof.
  apply (Flatten_starts_with_content tree_a_opt_b).
  right. left. reflexivity.
Defined.

Lemma product_length (total r : list rawString) :
  List.length (flat_map (fun rws => map (fun oo => (oo ++ rws)%list) total) r)
  = List.length r * List.length total.
Proof.
  induction r as [|x r IH]; simpl; [reflexivity|].
  now rewrite List.length_app, List.length_map, IH.
Qed.

Lemma pow3_pos (k : nat) : 1 <= 3 ^ k.
Proof. induction k; simpl; lia. Qed.

Lemma Flatten_bound_marked (n : treeNode) :
  groups_marked n = true ->
  List.length (Flatten n) + (if IsOptional n then 1 else 0) <= 3 ^ optional_count n.
Proof.
  induction n as [l r vs t IHl IHr] using treeNode_induction.
  intros Hm. cbn [groups_marked left right] in Hm.
  apply andb_true_iff in Hm. destruct Hm as [Hml Hmr].
  rewrite Flatten_eq. cbv zeta. cbn [optional_count left right].
  set (kl := match l with Some l0 => optional_count l0 | None => 0 end).
  set (kr := match r with Some r0 => optional_count r0 | None => 0 end).
  set (total1 := ((match vs with [] => [] | _ :: _ => [vs] end)
                  ++ match l with
                     | Some l0 => map (fun s => vs ++ s) (Flatten l0)
                     | None => []
                     end)%list).
  assert (H1 : List.length total1 <= 3 ^ kl).
  { unfold total1, kl. rewrite List.length_app.
    destruct l as [l0|].
    - apply andb_true_iff in Hml. destruct Hml as [Ho Hl].
      specialize (IHl Hl). rewrite Ho in IHl. rewrite List.length_map.
      unfold rawString in *. destruct vs; cbn [List.length]; lia.
    - destruct vs; cbn [List.length Nat.pow]; lia. }
  set (total2 := match r with
                 | Some rt =>
                     if existsb nonEmpty (Flatten rt)
                     then flat_map (fun rws => map (fun oo => (oo ++ rws)%list) total1)
                                   (Flatten rt)
                     else total1
                 | None => total1
                 end).
  pose proof (pow3_pos kl) as Pl. pose proof (pow3_pos kr) as Pr.
  assert (H2 : List.length total2 <= 3 ^ kl * 3 ^ kr).
  { unfold total2. destruct r as [rt|]; [|nia].
    destruct (existsb nonEmpty (Flatten rt)); [|nia].
    rewrite product_length. specialize (IHr Hmr).
    unfold rawString in *.
    assert (List.length (Flatten rt) <= 3 ^ kr)
      by (unfold kr, rawString in *; destruct (IsOptional rt); lia).
    unfold rawString in *. nia. }
  replace (3 ^ ((if IsOptional (mkTreeNode l r vs t) then 1 else 0) + kl + kr))
    with (3 ^ (if IsOptional (mkTreeNode l r vs t) then 1 else 0) * (3 ^ kl * 3 ^ kr))
    by (rewrite <- !Nat.pow_add_r; f_equal; lia).
  unfold rawString in *.
  destruct (IsOptional (mkTreeNode l r vs t)); cbn [andb].
  - destruct (nonEmpty vs); [rewrite List.length_app|]; cbn [List.length Nat.pow]; nia.
  - cbn [Nat.pow]. nia.
Qed.

(** X19: in a tree whose children are all marked optional, [Flatten] returns
    at most 3^k sequences, for the number k of optional nodes. *)
Theorem Flatten_at_most_pow3 (n : treeNode) :
  groups_marked n = true ->
  List.length (Flatten n) <= 3 ^ optional_count n.
Proof. intros H. pose proof (Flatten_bound_marked n H). lia. Qed.

Lemma Flatten_at_most_pow3_witness :
  List.length (Flatten tree_a_opt_b) <= 3 ^ optional_count tree_a_opt_b.
Proof. apply (Flatten_at_most_pow3 tree_a_opt_b). reflexivity. Defined.

(** *** What [decode] builds *)

Tactic Notation "bind_as" hyp(H) ident(a) ident(E) :=
  apply lexer_facts.bind_Done_inv in H; destruct H as [a [E H]].

Lemma keeps_refl (ctx : treeNode) : keeps ctx ctx.
Proof. split; auto. Qed.

Lemma keeps_trans (a b c : treeNode) : keeps a b -> keeps b c -> keeps a c.
Proof. intros [T1 M1] [T2 M2]. split; [congruence | auto]. Qed.

Lemma keeps_AddValue (ctx : treeNode) (v : string) (typ : valueType) :
  keeps ctx (AddValue ctx v typ).
Proof. destruct ctx. split; auto. Qed.

Lemma decode_chars_keeps (cs : list Queryable) :
  forall ctx t, decode_chars cs ctx = Done t -> keeps ctx t.
Proof.
  induction cs as [|c cs IH]; intros ctx t H; cbn [decode_chars] in H.
  - injection H as <-. apply keeps_refl.
  - destruct (String.eqb (GetName c) NORMALCHARS).
    + eapply keeps_trans; [apply keeps_AddValue | eauto].
    + destruct (String.eqb (GetName c) ESCAPEDCHAR); [|discriminate].
      eapply keeps_trans; [apply keeps_AddValue | eauto].
Qed.

Lemma groups_marked_Left (ctx : treeNode) :
  groups_marked ctx = true -> groups_marked (SetAsOptional (Left ctx)) = true.
Proof.
  destruct ctx as [[l|] r vs t]; [|reflexivity].
  cbn [groups_marked left right Left SetAsOptional]. intros H.
  apply andb_true_iff in H. destruct H as [H _].
  apply andb_true_iff in H. destruct H as [_ H].
  destruct l as [ll lr lvs lt]. exact H.
Qed.

Lemma groups_marked_Right (ctx : treeNode) :
  groups_marked ctx = true -> groups_marked (Right ctx) = true.
Proof.
  destruct ctx as [l [r|] vs t]; [|reflexivity].
  cbn [groups_marked left right Right]. intros H.
  apply andb_true_iff in H. tauto.
Qed.

Lemma keeps_set_right (ctx r : treeNode) :
  keeps (Right ctx) r -> keeps ctx (set_right ctx r).
Proof.
  intros [_ M]. split; [reflexivity|]. intros H.
  pose proof (M (groups_marked_Right ctx H)) as Hr.
  destruct ctx as [l r0 vs t]. cbn [groups_marked left right set_right] in *.
  apply andb_true_iff in H. destruct H as [Hl _]. now rewrite Hl, Hr.
Qed.

Lemma keeps_set_left (ctx l : treeNode) :
  keeps (SetAsOptional (Left ctx)) l -> keeps ctx (set_left ctx l).
Proof.
  intros [T M]. split; [reflexivity|]. intros H.
  pose proof (M (groups_marked_Left ctx H)) as Hl.
  assert (Ho : IsOptional l = true).
  { unfold IsOptional. rewrite T. now destruct (Left ctx). }
  destruct ctx as [l0 r vs t]. cbn [groups_marked left right set_left] in *.
  apply andb_true_iff in H. destruct H as [_ Hr]. now rewrite Ho, Hl, Hr.
Qed.

Lemma keeps_set_right_optional (ctx r : treeNode) :
  keeps (SetAsOptional (Right ctx)) r -> keeps ctx (set_right ctx r).
Proof.
  intros [_ M]. split; [reflexivity|]. intros H.
  assert (Hr : groups_marked r = true).
  { apply M. pose proof (groups_marked_Right ctx H) as H'.
    destruct (Right ctx). exact H'. }
  destruct ctx as [l r0 vs t]. cbn [groups_marked left right set_right] in *.
  apply andb_true_iff in H. destruct H as [Hl _]. now rewrite Hl, Hr.
Qed.

Lemma decode_loop_keeps (rec : list Queryable -> treeNode -> outcome treeNode) :
  (forall nodes ctx t, rec nodes ctx = Done t -> keeps ctx t) ->
  forall nodes rest onceFound ctx t,
    decode_loop rec nodes rest onceFound ctx = Done t -> keeps ctx t.
Proof.
  intros Hrec nodes rest.
  induction rest as [|node rest IH]; intros onceFound ctx t H;
    cbn [decode_loop] in H.
  - injection H as <-. apply keeps_refl.
  - destruct onceFound.
    { bind_as H r Er. injection H as <-.
      apply keeps_set_right. eauto. }
    destruct (String.eqb (GetName node) OPTIONALSTRING).
    { bind_as H c Ec. eapply keeps_trans; eauto. }
    destruct (String.eqb (GetName node) OPTIONAL).
    { cbn [negb] in H. bind_as H o Eo.
      eapply keeps_trans; [apply keeps_set_left; eauto | eauto]. }
    destruct (String.eqb (GetName node) CHARS).
    { bind_as H c Ec.
      eapply keeps_trans; [eapply decode_chars_keeps; eauto | eauto]. }
    destruct (String.eqb (GetName node) ESCAPED).
    { eapply keeps_trans; [apply keeps_AddValue | eauto]. }
    destruct (String.eqb (GetName node) ITEMS).
    { bind_as H c Ec. eapply keeps_trans; eauto. }
    eauto.
Qed.

Lemma recursiveDecode_keeps (fuel : nat) :
  forall nodes ctx t, recursiveDecode fuel nodes ctx = Done t -> keeps ctx t.
Proof.
  induction fuel as [|fuel IH]; intros nodes ctx t H; [discriminate|].
  cbn [recursiveDecode] in H. eapply decode_loop_keeps; eauto.
Qed.

(** X20: whatever the parse tree, the tree that [decode] builds from an
    empty root has a root that is not optional, and every child ([left]) in
    it is marked optional. *)
Theorem decode_marks_groups (node : Queryable) (t : treeNode) :
  decode node newTreeNode = Done t ->
  IsOptional t = false /\ groups_marked t = true.
Proof.
  intros H. destruct (recursiveDecode_keeps _ _ _ _ H) as [T M].
  split; [unfold IsOptional; now rewrite T | now apply M].
Qed.

Lemma decode_marks_groups_witness :
  IsOptional tree_a_opt_b = false /\ groups_marked tree_a_opt_b = true.
Proof.
  apply (decode_marks_groups
           (NonTerminal OPTIONALSTRING
              [NonTerminal CHARS [Terminal NORMALCHARS "a"];
               NonTerminal OPTIONAL
                 [Terminal OPENSQR "[";
                  NonTerminal ITEMS [NonTerminal CHARS [Terminal NORMALCHARS "b"]];
                  Terminal CLOSESQR "]"]])).
  reflexivity.
Defined.

(** *** One optional node for each bracket group *)

Lemma bracket_groups_NonTerminal (name : string) (cs : list Queryable) :
  bracket_groups (NonTerminal name cs)
  = if String.eqb name CHARS then 0
    else if String.eqb name ESCAPED then 0
    else (if String.eqb name OPTIONAL then 1 else 0) + bracket_groups_in cs.
Proof. reflexivity. Qed.

Lemma decode_chars_structure (cs : list Queryable) :
  forall ctx t, decode_chars cs ctx = Done t ->
    left t = left ctx /\ right t = right ctx /\ node_typ t = node_typ ctx.
Proof.
  induction cs as [|c cs IH]; intros ctx t H; cbn [decode_chars] in H.
  - injection H as <-. auto.
  - destruct (String.eqb (GetName c) NORMALCHARS).
    + destruct (IH _ _ H) as [L [R T]]. destruct ctx. auto.
    + destruct (String.eqb (GetName c) ESCAPEDCHAR); [|discriminate].
      destruct (IH _ _ H) as [L [R T]]. destruct ctx. auto.
Qed.

Lemma optional_count_structure (a b : treeNode) :
  left a = left b -> right a = right b -> node_typ a = node_typ b ->
  optional_count a = optional_count b.
Proof.
  destruct a, b. cbn [left right node_typ]. intros -> -> ->. reflexivity.
Qed.

Lemma childless_inv (ctx : treeNode) :
  childless ctx = true -> left ctx = None /\ right ctx = None.
Proof. destruct ctx as [[l|] [r|] vs t]; cbn; intros H; try discriminate. auto. Qed.

Lemma decode_loop_counts (rec : list Queryable -> treeNode -> outcome treeNode) :
  counts_items rec -> counts_group rec ->
  forall nodes rest onceFound ctx t,
    forallb item_tree rest = true ->
    (onceFound = false -> left ctx = None) ->
    right ctx = None ->
    decode_loop rec nodes rest onceFound ctx = Done t ->
    optional_count t = optional_count ctx + bracket_groups_in rest.
Proof.
  intros H1 H2 nodes rest.
  induction rest as [|node rest IH]; intros onceFound ctx t Hit Hl Hr H.
  - cbn [decode_loop] in H. injection H as <-. cbn. lia.
  - cbn [decode_loop] in H. destruct onceFound.
    + bind_as H r Er. injection H as <-.
      assert (ER : Right ctx = newTreeNode) by (unfold Right; now rewrite Hr).
      rewrite ER in Er.
      pose proof (H1 _ newTreeNode _ Hit eq_refl Er) as Hc.
      destruct ctx as [l r0 vs ty]. cbn [right] in Hr. subst r0.
      cbn [optional_count set_right left right newTreeNode] in *.
      unfold IsOptional in *. cbn [node_typ] in *. destruct ty; lia.
    + specialize (Hl eq_refl).
      cbn [forallb] in Hit. apply andb_true_iff in Hit. destruct Hit as [Hn Hrest].
      cbn [bracket_groups_in].
      destruct (item_tree_cases _ Hn)
        as [[cs [-> Hcs]] | [[cs ->] | [o [its [c [-> Hits]]]]]].
      * cbn [GetName GetChildren] in H. cbn -[decode_loop decode_chars] in H.
        bind_as H ctx' Ec.
        destruct (decode_chars_structure _ _ _ Ec) as [L [R T]].
        rewrite (IH false ctx' t Hrest (fun _ => eq_trans L Hl) (eq_trans R Hr) H).
        rewrite (optional_count_structure _ _ L R T).
        rewrite bracket_groups_NonTerminal. cbn. lia.
      * cbn [GetName GetChildren] in H. cbn -[decode_loop GetValue AddValue] in H.
        rewrite (IH false (AddValue ctx (GetValue (NonTerminal ESCAPED cs))
                                    singleQuoteEscaped) t Hrest (fun _ => Hl) Hr H).
        rewrite (optional_count_structure (AddValue ctx _ _) ctx)
          by (destruct ctx; reflexivity).
        rewrite bracket_groups_NonTerminal. cbn. lia.
      * cbn [GetName GetChildren] in H.
        cbn -[decode_loop Left SetAsOptional set_left] in H.
        bind_as H optNext Eo.
        assert (EL : Left ctx = newTreeNode) by (unfold Left; now rewrite Hl).
        rewrite EL in Eo.
        pose proof (H2 _ _ _ (SetAsOptional newTreeNode) _ Hits eq_refl Eo) as Hc.
        rewrite (IH true (set_left ctx optNext) t Hrest
                   (fun e => False_ind _ (diff_true_false e)) Hr H).
        destruct ctx as [l0 r0 vs ty]. cbn [left right] in Hl, Hr. subst l0 r0.
        cbn [optional_count set_left left right SetAsOptional newTreeNode] in *.
        rewrite bracket_groups_NonTerminal.
        cbn [bracket_groups_in]. rewrite bracket_groups_NonTerminal.
        unfold IsOptional in *. cbn [node_typ] in *.
        cbn -[bracket_groups_in optional_count]. cbn in Hc.
        destruct ty; lia.
Qed.

Lemma recursiveDecode_counts (fuel : nat) :
  counts_items (recursiveDecode fuel) /\ counts_group (recursiveDecode fuel).
Proof.
  induction fuel as [|fuel [IH1 IH2]].
  - split; repeat intro; discriminate.
  - split.
    + intros its ctx t Hit Hc H. cbn [recursiveDecode] in H.
      destruct (childless_inv _ Hc) as [Hl Hr].
      exact (decode_loop_counts _ IH1 IH2 its its false ctx t Hit (fun _ => Hl) Hr H).
    + intros o its c ctx t Hit Hc H. cbn [recursiveDecode] in H.
      cbn -[recursiveDecode] in H. bind_as H ctx' E. injection H as <-.
      exact (IH1 _ _ _ Hit Hc E).
Qed.

(** X21: when a template expands, [Flatten] returns at most 3^k sequences,
    for the number k of bracket groups of the template. *)
Theorem flattened_at_most_pow3 (input : string) (f : list rawString) :
  flattened_with parse input = Done (Ok f) ->
  exists ns,
    parse input = Done (Some (NonTerminal OPTIONALSTRING ns))
    /\ List.length f <= 3 ^ bracket_groups_in ns.
Proof.
  intros H. destruct (parse_returns input) as [ns [rest [E [HF _]]]].
  exists ns. split; [exact E|].
  unfold flattened_with in H. rewrite E in H.
  destruct (negb _); [discriminate|].
  bind_as H root Ed. injection H as <-.
  pose proof (recursiveDecode_keeps _ _ _ _ Ed) as [_ M].
  pose proof (proj1 (recursiveDecode_counts _) _ newTreeNode _
                (Forall_forallb _ _ HF) eq_refl Ed) as Hc.
  pose proof (Flatten_bound_marked root (M eq_refl)) as Hb.
  rewrite Hc in Hb. cbn [optional_count newTreeNode left right IsOptional
                         node_typ Nat.add] in Hb.
  unfold rawString in *. lia.
Qed.

Lemma flattened_at_most_pow3_witness :
  exists ns,
    parse "a[b[c]]" = Done (Some (NonTerminal OPTIONALSTRING ns))
    /\ List.length
         (let a := mkValue normal "a" in
          let b := mkValue normal "b" in
          let c := mkValue normal "c" in
          [[a]; [a; b]; [a; b; c]; [a; b]; [a]])
       <= 3 ^ bracket_groups_in ns.
Proof. apply (flattened_at_most_pow3 "a[b[c]]"). reflexivity. Defined.

(** *** The results of [EnumerateOptionalString] *)

(** X22: every call of [EnumerateOptionalString] returns: the grammar
    gives a node, and the call has a returned result.  It returns strings
    exactly when the grammar has read the whole template; otherwise the
    text that was read is shorter than the template and the call returns a
    [SyntaxError] with the template and that text. *)
Theorem EnumerateOptionalString_result (input : string) :
  exists node,
    parse input = Done (Some node)
    /\ (exists r, EnumerateOptionalString input (Done r))
    /\ forall res,
        EnumerateOptionalString input res ->
        (GetValue node = input /\ exists out, res = Done (Ok out))
        \/ (String.length (GetValue node) < String.length input
            /\ res = Done (Err (SyntaxError input (GetValue node)))).
Proof.
  destruct (parse_returns input) as [ns [rest [E [HF R]]]].
  exists (NonTerminal OPTIONALSTRING ns). split; [exact E|].
  split; [exact (claims.EnumerateOptionalString_returns input)|].
  intros res H.
  unfold EnumerateOptionalString, EnumerateOptionalString_with, flattened_with in H.
  rewrite E in H. rewrite GetValue_NonTerminal in *.
  destruct (Nat.eqb_spec (String.length (values ns)) (String.length input)) as [El|El];
    cbn [negb] in H.
  - left. destruct (reads_whole _ _ _ R El) as [Ev _]. split; [exact Ev|].
    destruct (decode_total ns newTreeNode HF) as [t Ht].
    rewrite Ht in H. cbn [bind] in H. destruct H as [out [-> _]]. eauto.
  - right. pose proof (reads_length _ _ _ R). split; [lia | exact H].
Qed.

Lemma EnumerateOptionalString_result_witness :
  exists node,
    parse "a[b" = Done (Some node)
    /\ ((GetValue node = "a[b"
         /\ exists out,
             Done (Err (SyntaxError "a[b" "a"))
             = (Done (Ok out) : outcome (result error (list string))))
        \/ (String.length (GetValue node) < String.length "a[b"
            /\ (Done (Err (SyntaxError "a[b" "a"))
                : outcome (result error (list string)))
               = Done (Err (SyntaxError "a[b" (GetValue node))))).
Proof.
  destruct (EnumerateOptionalString_result "a[b") as [node [E [_ H]]].
  exists node. split; [exact E|].
  apply (H (Done (Err (SyntaxError "a[b" "a")))). reflexivity.
Defined.

(** X23: in package flextime a template that starts with a closing bracket
    or with a quote is rejected: nothing is read, and the call returns a
    [SyntaxError] with an empty parsed text. *)
Theorem EnumerateOptionalString_rejects_head (c : ascii) (s : string) :
  c = "]"%char \/ c = "'"%char ->
  EnumerateOptionalString (String c s) (Done (Err (SyntaxError (String c s) ""))).
Proof. intros [-> | ->]; reflexivity. Qed.

Lemma EnumerateOptionalString_rejects_head_witness :
  EnumerateOptionalString (String "]"%char "abc")
    (Done (Err (SyntaxError (String "]"%char "abc") ""))).
Proof. apply (EnumerateOptionalString_rejects_head "]"%char "abc"). now left. Defined.

End tree_more.

(** * Translation of a tagged sequence *)

Module raw_more.
Import lexer props strfacts rawtranslate.

Section Raw.

Variable V : Type.
Variable Typ : V -> optionalstring.ValueType.
Variable Unescaped : V -> string.

Lemma Raw_loop_prepend (input : list V) :
  forall out,
    ReplaceTimeTokenRaw_loop V Typ Unescaped input out
    = prepend out (ReplaceTimeTokenRaw_loop V Typ Unescaped input "").
Proof.
  induction input as [|vv rest IH]; intros out; cbn [ReplaceTimeTokenRaw_loop].
  - simpl. now rewrite app_nil_r.
  - destruct (Typ vv).
    + destruct (ReplaceTimeToken (Unescaped vv)) as [[replaced|e]| |];
        cbn [bind prepend]; try reflexivity.
      rewrite (IH (out ++ replaced)), (IH ("" ++ replaced)).
      now rewrite lexer_more.prepend_prepend.
    + rewrite (IH (out ++ Unescaped vv)), (IH ("" ++ Unescaped vv)).
      now rewrite lexer_more.prepend_prepend.
    + rewrite (IH (out ++ Unescaped vv)), (IH ("" ++ Unescaped vv)).
      now rewrite lexer_more.prepend_prepend.
Qed.

(** X16: a sequence without [Normal] value is copied: the result is the
    concatenation of the unescaped values, and no value is read for tokens. *)
Theorem ReplaceTimeTokenRaw_escaped (input : list V) :
  all_escaped V Typ input = true ->
  ReplaceTimeTokenRaw V Typ Unescaped input
  = Done (Ok (String.concat "" (map Unescaped input))).
Proof.
  unfold ReplaceTimeTokenRaw.
  induction input as [|vv rest IH]; intros H; [reflexivity|].
  cbn [all_escaped forallb] in H. apply andb_true_iff in H. destruct H as [Hv Hr].
  cbn [ReplaceTimeTokenRaw_loop map].
  assert (E : ReplaceTimeTokenRaw_loop V Typ Unescaped rest ("" ++ Unescaped vv)
              = Done (Ok (String.concat "" (Unescaped vv :: map Unescaped rest)))).
  { rewrite Raw_loop_prepend, (IH Hr). cbn [prepend append].
    do 2 f_equal. cbn [String.concat].
    destruct (map Unescaped rest) eqn:Em; [|reflexivity].
    cbn [String.concat]. now rewrite app_nil_r. }
  destruct (Typ vv); [discriminate | exact E | exact E].
Qed.

(** X17: the translation of a sequence [a ++ b] is the translation of [a]
    followed by the translation of [b]; an error or a panic in [a] is the
    result, and [b] is not read. *)
Theorem ReplaceTimeTokenRaw_app (a b : list V) :
  ReplaceTimeTokenRaw V Typ Unescaped (a ++ b)%list
  = match ReplaceTimeTokenRaw V Typ Unescaped a with
    | Done (Ok out) => prepend out (ReplaceTimeTokenRaw V Typ Unescaped b)
    | other => other
    end.
Proof.
  unfold ReplaceTimeTokenRaw.
  assert (G : forall out,
             ReplaceTimeTokenRaw_loop V Typ Unescaped (a ++ b)%list out
             = match ReplaceTimeTokenRaw_loop V Typ Unescaped a out with
               | Done (Ok out') =>
                   prepend out' (ReplaceTimeTokenRaw_loop V Typ Unescaped b "")
               | other => other
               end).
  { induction a as [|vv rest IH]; intros out.
    - cbn [List.app ReplaceTimeTokenRaw_loop]. apply Raw_loop_prepend.
    - cbn [List.app ReplaceTimeTokenRaw_loop].
      destruct (Typ vv); [|apply IH | apply IH].
      destruct (ReplaceTimeToken (Unescaped vv)) as [[replaced|e]| |];
        cbn [bind]; try reflexivity.
      apply IH. }
  apply G.
Qed.

End Raw.

Lemma ReplaceTimeTokenRaw_escaped_witness :
  ReplaceTimeTokenRaw optionalstring.Value optionalstring.origin
    optionalstring.text_of
    [optionalstring.mkValue optionalstring.SlashEscaped "Y";
     optionalstring.mkValue optionalstring.SingleQuoteEscaped "MM"]
  = Done (Ok (String.concat ""
                (map optionalstring.text_of
                   [optionalstring.mkValue optionalstring.SlashEscaped "Y";
                    optionalstring.mkValue optionalstring.SingleQuoteEscaped "MM"]))).
Proof.
  apply (ReplaceTimeTokenRaw_escaped optionalstring.Value optionalstring.origin
           optionalstring.text_of).
  reflexivity.
Defined.

End raw_more.

(** * A template with one bracket group *)

Module expand_more.
Import parsec grammar props strfacts parser_facts flextime.

Lemma span_normal_plain (a : string) (c : ascii) (rest : string) :
  no_special a = true -> is_special c = true ->
  span_normal (a ++ String c rest) = (a, String c rest).
Proof.
  intros Ha Hc. induction a as [|x a IH]; cbn [append span_normal].
  - now rewrite Hc.
  - cbn [no_special] in Ha. apply andb_true_iff in Ha. destruct Ha as [Hx Ha].
    apply negb_true_iff in Hx. now rewrite Hx, (IH Ha).
Qed.

Lemma plain_text_inv (a : string) :
  plain_text a = true ->
  exists x a', a = String x a' /\ is_ws x = false /\ is_special x = false
               /\ no_special a = true.
Proof.
  destruct a as [|x a']; [discriminate|]. cbn [plain_text]. intros H.
  apply andb_true_iff in H. destruct H as [Hw Hn].
  exists x, a'. repeat split; auto.
  - now apply negb_true_iff.
  - cbn [no_special] in Hn. apply andb_true_iff in Hn. destruct Hn as [Hx _].
    now apply negb_true_iff.
Qed.

Lemma not_special_neq (x : ascii) :
  is_special x = false ->
  Ascii.eqb "["%char x = false /\ Ascii.eqb x "\"%char = false.
Proof.
  unfold is_special. intros H.
  apply orb_false_iff in H. destruct H as [H _].
  apply orb_false_iff in H. destruct H as [H Hb].
  apply orb_false_iff in H. destruct H as [Ho _].
  split; [now rewrite Ascii.eqb_sym | exact Hb].
Qed.

Lemma char_plain (a : string) (c : ascii) (rest : string) :
  plain_text a = true -> is_bracket c ->
  char (a ++ String c rest) = Done (Some (Terminal NORMALCHARS a, String c rest)).
Proof.
  intros Ha Hc. destruct (plain_text_inv a Ha) as [x [a' [-> [Hw [Hs Hn]]]]].
  destruct (not_special_neq x Hs) as [_ Hb].
  assert (Hsp : is_special c = true) by (destruct Hc as [-> | ->]; reflexivity).
  unfold char. cbn [OrdChoice].
  unfold escapedchar, normalchars, Token.
  cbn [append SkipWS]. rewrite Hw. cbn [match_escapedchar]. rewrite Hb. cbn [bind].
  unfold match_normalchars.
  change (String x (a' ++ String c rest)) with (String x a' ++ String c rest).
  rewrite (span_normal_plain _ _ _ Hn Hsp). reflexivity.
Qed.

Lemma char_bracket (c : ascii) (rest : string) :
  is_bracket c -> char (String c rest) = Done None.
Proof. intros [-> | ->]; reflexivity. Qed.

Lemma chars_plain (a : string) (c : ascii) (rest : string) :
  plain_text a = true -> is_bracket c ->
  chars (a ++ String c rest)
  = Done (Some (NonTerminal CHARS [Terminal NORMALCHARS a], String c rest)).
Proof.
  intros Ha Hc. unfold chars, Many.
  destruct (plain_text_inv a Ha) as [x [a' [E _]]].
  assert (Hl : exists n, String.length (a ++ String c rest) = S n).
  { subst a. cbn. eauto. }
  destruct Hl as [n ->].
  cbn [repeat_loop]. rewrite (char_plain a c rest Ha Hc). cbn [bind].
  rewrite (char_bracket c rest Hc). reflexivity.
Qed.

Lemma chars_bracket (c : ascii) (rest : string) :
  is_bracket c -> chars (String c rest) = Done None.
Proof.
  intros Hc. unfold chars, Many. cbn [String.length repeat_loop].
  rewrite (char_bracket c rest Hc). reflexivity.
Qed.

Lemma opensqr_plain (a rest : string) :
  plain_text a = true -> opensqr (a ++ rest) = Done None.
Proof.
  intros Ha. destruct (plain_text_inv a Ha) as [x [a' [-> [Hw [Hs _]]]]].
  destruct (not_special_neq x Hs) as [Ho _].
  unfold opensqr, Atom. cbn [append SkipWS]. rewrite Hw.
  cbn [MatchString]. now rewrite Ho.
Qed.

Lemma optional_plain (d : nat) (a rest : string) :
  plain_text a = true -> grammar.optional (S d) (a ++ rest) = Done None.
Proof.
  intros Ha. cbn [grammar.optional]. unfold And. cbn [and_seq].
  now rewrite (opensqr_plain a rest Ha).
Qed.

Lemma item_closing (d : nat) (rest : string) :
  OrdChoice ITEM [chars; escaped; grammar.optional (S d)] (String "]"%char rest)
  = Done None.
Proof.
  cbn [OrdChoice]. rewrite (chars_bracket "]"%char rest (or_intror eq_refl)).
  reflexivity.
Qed.

Lemma optional_group (d : nat) (q rest : string) :
  plain_text q = true ->
  grammar.optional (S (S d)) (String "["%char (q ++ String "]"%char rest))
  = Done (Some (group_of q, rest)).
Proof.
  intros Hq.
  change (grammar.optional (S (S d)))
    with (And OPTIONAL
            [opensqr;
             Kleene ITEMS (OrdChoice ITEM [chars; escaped; grammar.optional (S d)]);
             closesqr]).
  unfold And. cbn [and_seq].
  change (opensqr (String "["%char (q ++ String "]"%char rest)))
    with (Done (Some (Terminal OPENSQR "[", q ++ String "]"%char rest))
          : outcome (option (Queryable * Scanner))).
  cbn [bind]. unfold Kleene.
  assert (I1 : OrdChoice ITEM [chars; escaped; grammar.optional (S d)]
                 (q ++ String "]"%char rest)
               = Done (Some (NonTerminal CHARS [Terminal NORMALCHARS q],
                             String "]"%char rest))).
  { cbn [OrdChoice].
    now rewrite (chars_plain q "]"%char rest Hq (or_intror eq_refl)). }
  pose proof (item_closing d rest) as I2.
  remember (OrdChoice ITEM [chars; escaped; grammar.optional (S d)]) as it eqn:Eit.
  clear Eit.
  destruct (plain_text_inv q Hq) as [x [q' [E _]]].
  assert (Hl : exists n, String.length (q ++ String "]"%char rest) = S n).
  { subst q. cbn. eauto. }
  destruct Hl as [n ->].
  cbn [repeat_loop]. rewrite I1. cbn [bind]. rewrite I2. cbn [bind fst snd].
  reflexivity.
Qed.

Lemma optional_empty (d : nat) : grammar.optional (S d) "" = Done None.
Proof. cbn [grammar.optional]. unfold And. cbn [and_seq]. reflexivity. Qed.

Lemma parse_one_group (p q : string) :
  plain_text p = true -> plain_text q = true ->
  parse (p ++ String "["%char (q ++ "]")) = Done (Some (one_group_tree p q)).
Proof.
  intros Hp Hq. unfold parse, Parsewith, MakeOptionalStringParser, NewScanner, Kleene.
  set (input := p ++ String "["%char (q ++ "]")).
  assert (Hl : exists n, String.length input = S (S (S n))).
  { unfold input.
    destruct (plain_text_inv p Hp) as [x [p' [-> _]]].
    destruct (plain_text_inv q Hq) as [y [q' [-> _]]].
    cbn [append String.length]. rewrite length_app. cbn [String.length].
    rewrite Nat.add_succ_r. cbn [String.length]. eauto. }
  destruct Hl as [n Hn]. rewrite Hn.
  assert (T1 : OrdChoice "items" [grammar.optional (S (S (S (S n)))); chars] input
               = Done (Some (NonTerminal CHARS [Terminal NORMALCHARS p],
                             String "["%char (q ++ "]")))).
  { cbn [OrdChoice]. unfold input.
    rewrite (optional_plain _ p _ Hp). cbn [bind].
    now rewrite (chars_plain p "["%char _ Hp (or_introl eq_refl)). }
  assert (T2 : OrdChoice "items" [grammar.optional (S (S (S (S n)))); chars]
                 (String "["%char (q ++ "]"))
               = Done (Some (group_of q, ""))).
  { cbn [OrdChoice]. now rewrite (optional_group _ q "" Hq). }
  assert (T3 : OrdChoice "items" [grammar.optional (S (S (S (S n)))); chars] ""
               = Done None).
  { cbn [OrdChoice]. rewrite optional_empty. reflexivity. }
  remember (OrdChoice "items" [grammar.optional (S (S (S (S n)))); chars]) as top
    eqn:Etop.
  clear Etop.
  cbn [repeat_loop]. rewrite T1. cbn [bind]. rewrite T2. cbn [bind].
  rewrite T3. reflexivity.
Qed.

Lemma value_one_group (p q : string) :
  GetValue (one_group_tree p q) = p ++ String "["%char (q ++ "]").
Proof.
  unfold one_group_tree, group_of. cbn [GetValue].
  now rewrite !app_nil_r.
Qed.

Lemma flattened_one_group (p q : string) :
  plain_text p = true -> plain_text q = true ->
  flattened_with parse (p ++ String "["%char (q ++ "]"))
  = Done (Ok [[mkValue normal p];
              [mkValue normal p; mkValue normal q];
              [mkValue normal p]]).
Proof.
  intros Hp Hq. unfold flattened_with.
  rewrite (parse_one_group p q Hp Hq), value_one_group, Nat.eqb_refl.
  cbn [negb].
  destruct (plain_text_inv q Hq) as [y [q' [-> _]]].
  reflexivity.
Qed.

(** X24: for texts [p] and [q] without special byte, not empty and not
    starting with white space, the template [p[q]] expands to exactly the
    two strings [p] and [pq]. *)
Theorem EnumerateOptionalString_one_group (p q : string) res :
  plain_text p = true -> plain_text q = true ->
  (EnumerateOptionalString (p ++ String "["%char (q ++ "]")) res
   <-> exists out,
         res = Done (Ok out) /\ NoDup out
         /\ forall x, In x out <-> x = p \/ x = p ++ q).
Proof.
  intros Hp Hq.
  unfold EnumerateOptionalString, EnumerateOptionalString_with.
  rewrite (flattened_one_group p q Hp Hq). cbn [map String_ value_value].
  rewrite !app_nil_r. unfold Collect.
  split; intros [out [E [Hnd Hin]]]; exists out;
    (split; [exact E|]); (split; [exact Hnd|]);
    intros y; rewrite Hin; simpl; intuition auto.
Qed.

Lemma EnumerateOptionalString_one_group_witness :
  EnumerateOptionalString ("abc" ++ String "["%char ("def" ++ "]"))
    (Done (Ok ["abc"; "abcdef"])).
Proof.
  apply (proj2 (EnumerateOptionalString_one_group "abc" "def"
                  (Done (Ok ["abc"; "abcdef"])) eq_refl eq_refl)).
  exists ["abc"; "abcdef"]. split; [reflexivity|]. split.
  - repeat constructor; simpl; intuition discriminate.
  - intros x. simpl. intuition auto.
Defined.

End expand_more.
